(** * Envelope detector: pattern and importance analysis

    A shallow embedding of the analysis code of [Demonstration.ipynb]
    (covariance estimator, spatial-pattern loop, filter spectrum, derived
    spectra, gradient aggregation) together with the properties the
    specification states about it.

    Arrays are [torch] / [numpy] tensors.  A tensor is modelled by its shape
    and its indexing function; array entries are real numbers (the exact
    arithmetic that float32 approximates), except in [Module Float32], where
    the element-wise products of the derived spectra are evaluated in IEEE
    binary32. *)

From Stdlib Require Import Reals Lra Lia ZArith List Bool Arith.
From Stdlib Require Import Sorted Permutation.
From Stdlib Require Import SpecFloat.
Import ListNotations.

Local Open Scope R_scope.

(** ** Exceptions and fallible computations *)

(** Python exception classes.  The first five are what the interpreter,
    [torch], [einops], [numpy] and [scipy] raise on the paths modelled
    below ([einops.EinopsError] is a subclass of [RuntimeError] and
    [numpy.AxisError] of [ValueError]; they are folded into them).
    [DegenerateInputError] is the class the specification names for too
    few samples; no path of the notebook constructs it. *)
Inductive exception : Type :=
| ZeroDivisionError
| IndexError
| RuntimeError
| ValueError
| AssertionError
| DegenerateInputError.

Inductive result (A : Type) : Type :=
| Ok (a : A)
| Raise (e : exception).

Arguments Ok {A} a.
Arguments Raise {A} e.

Definition bind {A B : Type} (c : result A) (k : A -> result B) : result B :=
  match c with
  | Ok a => k a
  | Raise e => Raise e
  end.

Notation "x <- c ;; k" := (bind c (fun x => k))
  (at level 61, c at next level, right associativity).

(** ** Tensors *)

Record tensor (A : Type) : Type := mkTensor {
  shape : list nat;
  get : list nat -> A
}.

Arguments mkTensor {A} shape get.
Arguments shape {A} t.
Arguments get {A} t idx.

(** An index is in range when it has one coordinate per axis, each below
    the size of its axis. *)
Definition valid_index (idx s : list nat) : Prop := Forall2 lt idx s.

(** Same shape and same entries. *)
Definition teq {A : Type} (x y : tensor A) : Prop :=
  shape x = shape y /\ forall idx, get x idx = get y idx.

(** Finite sums [f 0 + ... + f (n-1)]. *)
Fixpoint rsum (n : nat) (f : nat -> R) : R :=
  match n with
  | O => 0
  | S k => rsum k f + f k
  end.

(** [x.shape[-1]]: the size of the last axis; a 0-d tensor has none. *)
Definition shape_last {A : Type} (x : tensor A) : result nat :=
  match rev (shape x) with
  | [] => Raise IndexError
  | t :: _ => Ok t
  end.

(** Splits [lead ++ [a; b]] into [(lead, a, b)]. *)
Definition split_last2 (l : list nat) : option (list nat * nat * nat) :=
  match rev l with
  | b :: a :: r => Some (rev r, a, b)
  | _ => None
  end.

(** *** Broadcasting

    Shapes are aligned on their last axis; two sizes are compatible when
    they are equal or one of them is 1. *)
Fixpoint bshape_rev (s1 s2 : list nat) : option (list nat) :=
  match s1, s2 with
  | [], _ => Some s2
  | _, [] => Some s1
  | a :: s1', b :: s2' =>
      match bshape_rev s1' s2' with
      | None => None
      | Some s =>
          if a =? b then Some (a :: s)
          else if a =? 1 then Some (b :: s)
          else if b =? 1 then Some (a :: s)
          else None
      end
  end%nat.

Definition broadcast_shapes (s1 s2 : list nat) : option (list nat) :=
  option_map (@rev nat) (bshape_rev (rev s1) (rev s2)).

(** The index of an operand of shape [s] that an index of the broadcast
    result reads: missing leading axes are dropped and an axis of size 1 is
    always read at 0. *)
Fixpoint bidx_rev (s i : list nat) : list nat :=
  match s, i with
  | d :: s', k :: i' => (if d =? 1 then 0 else k)%nat :: bidx_rev s' i'
  | _, _ => []
  end.

Definition bidx (s i : list nat) : list nat := rev (bidx_rev (rev s) (rev i)).

(** Element-wise binary operation with broadcasting ([x - y], [x * y]). *)
Definition tzip {A B C : Type} (f : A -> B -> C) (x : tensor A) (y : tensor B)
  : result (tensor C) :=
  match broadcast_shapes (shape x) (shape y) with
  | None => Raise RuntimeError
  | Some s =>
      Ok (mkTensor s (fun i => f (get x (bidx (shape x) i))
                                 (get y (bidx (shape y) i))))
  end.

Definition tmap {A B : Type} (f : A -> B) (x : tensor A) : tensor B :=
  mkTensor (shape x) (fun i => f (get x i)).

(** [c * x] for a Python float [c]. *)
Definition scale (c : R) (x : tensor R) : tensor R := tmap (Rmult c) x.

(** [torch.mean(x, dim=-1, keepdims=True)].  On a 0-d tensor the only axis
    [dim=-1] can name is the tensor itself. *)
Definition mean_last (x : tensor R) : tensor R :=
  match rev (shape x) with
  | [] => x
  | T :: rl =>
      mkTensor (rev rl ++ [1%nat])
        (fun i => rsum T (fun t => get x (removelast i ++ [t]))
                  / IZR (Z.of_nat T))
  end.

(** [torch.einsum('...ct, ...Ct -> ...cC', x, x)], both operands being the
    same tensor: the Gram matrix of the rows of every leading element. *)
Definition einsum_ct_Ct_cC (x : tensor R) : result (tensor R) :=
  match split_last2 (shape x) with
  | None => Raise RuntimeError
  | Some (ls, C, T) =>
      Ok (mkTensor (ls ++ [C; C])
            (fun i =>
               match split_last2 i with
               | Some (lead, c, C') =>
                   rsum T (fun t => get x (lead ++ [c; t]) * get x (lead ++ [C'; t]))
               | None => 0
               end))
  end.

(** Python's true division [a / b] of two integers. *)
Definition py_div (a b : Z) : result R :=
  if (b =? 0)%Z then Raise ZeroDivisionError else Ok (IZR a / IZR b).

(** ** The covariance estimator (notebook cell 9)

<<
def covariance(x, unbiased=True, mean=None):
    if mean is None:
        mean = torch.mean(x, dim=-1, keepdims=True)
    x = x - mean
    covariance_matrix = 1 / (x.shape[-1] - unbiased) * torch.einsum('...ct, ...Ct -> ...cC', x, x)
    return covariance_matrix
>>
    The left operand of [*] is evaluated first, so the integer division
    fails before [einsum] is reached. *)
Definition covariance (x : tensor R) (unbiased : bool) (mean : option (tensor R))
  : result (tensor R) :=
  let mean := match mean with
              | None => mean_last x
              | Some m => m
              end in
  x <- tzip Rminus x mean ;;
  T <- shape_last x ;;
  c <- py_div 1 (Z.of_nat T - Z.b2z unbiased) ;;
  g <- einsum_ct_Ct_cC x ;;
  Ok (scale c g).

(** Tensors written out as nested lists, for concrete inputs. *)
Definition of_rows (C T : nat) (rows : list (list R)) : tensor R :=
  mkTensor [C; T]
    (fun i => match i with
              | [c; t] => nth t (nth c rows []) 0
              | _ => 0
              end).

Definition of_blocks (B C T : nat) (blocks : list (list (list R))) : tensor R :=
  mkTensor [B; C; T]
    (fun i => match i with
              | [b; c; t] => nth t (nth c (nth b blocks []) []) 0
              | _ => 0
              end).

(** ** The spatial-pattern loop (notebook cell 10) *)

(** [w[f:f+1]]: a slice of the first axis; out of range it is empty. *)
Definition slice_one {A : Type} (w : tensor A) (f : nat) : result (tensor A) :=
  match shape w with
  | [] => Raise IndexError
  | n :: s =>
      Ok (mkTensor ((if f <? n then 1 else 0)%nat :: s)
            (fun i => match i with
                      | a :: i' => get w ((f + a)%nat :: i')
                      | [] => get w []
                      end))
  end.

(** [w[f]]: integer indexing of the first axis. *)
Definition select {A : Type} (w : tensor A) (f : nat) : result (tensor A) :=
  match shape w with
  | [] => Raise IndexError
  | n :: s =>
      if (f <? n)%nat then Ok (mkTensor s (fun i => get w (f :: i)))
      else Raise IndexError
  end.

(** [einops.repeat(w, '1 1 t -> c 1 t', c=c)]. *)
Definition repeat_11t_c1t {A : Type} (w : tensor A) (c : nat) : result (tensor A) :=
  match shape w with
  | [1%nat; 1%nat; k] =>
      Ok (mkTensor [c; 1%nat; k]
            (fun i => match i with
                      | [_; _; j] => get w [0%nat; 0%nat; j]
                      | _ => get w i
                      end))
  | _ => Raise RuntimeError
  end.

(** Zeros [padding='same'] puts in front of the signal for a kernel of
    [k] taps (stride 1, dilation 1): [total = k - 1], [left = total // 2],
    the remaining [total - left] zeros follow the signal. *)
Definition same_pad_left (k : nat) : nat := ((k - 1) / 2)%nat.

(** Entry [p] of row [c] of the signal padded with [left] zeros in front. *)
Definition padded (x : tensor R) (lead : list nat) (L left c p : nat) : R :=
  if ((left <=? p) && (p <? left + L))%nat
  then get x (lead ++ [c; (p - left)%nat])
  else 0.

(** [F.conv1d(input, weight, bias=None, padding='same', groups=groups)]:
    cross-correlation of every output channel with the input channels of
    its group.  The input is [(C_in, L)] or [(batch, C_in, L)], the weight
    [(C_out, C_in / groups, k)]; empty channel, time or kernel axes are
    rejected. *)
Definition conv1d_same (input weight : tensor R) (groups : nat)
  : result (tensor R) :=
  match split_last2 (shape input), shape weight with
  | Some (ls, Cin, L), [Cout; Ipg; k] =>
      if ((length ls <=? 1) && (0 <? groups) && (Cin =? groups * Ipg)
          && (Cout mod groups =? 0) && (0 <? Cin) && (0 <? L) && (0 <? k)
          && (0 <? Cout))%nat
      then
        Ok (mkTensor (ls ++ [Cout; L])
              (fun idx =>
                 match split_last2 idx with
                 | Some (lead, o, t) =>
                     rsum Ipg (fun i =>
                       rsum k (fun j =>
                         get weight [o; i; j]
                         * padded input lead L (same_pad_left k)
                             (o / (Cout / groups) * Ipg + i)%nat (t + j)%nat))
                 | None => 0
                 end))
      else Raise RuntimeError
  | _, _ => Raise RuntimeError
  end.

(** The size a subscript shared by two [einsum] operands ranges over. *)
Definition bdim (a b : nat) : option nat :=
  if (a =? b)%nat then Some a
  else if (a =? 1)%nat then Some b
  else if (b =? 1)%nat then Some a
  else None.

(** [torch.einsum('...cC, Ck -> c', m, w)] for a 2-d [m] (the ellipsis is
    empty, as in the loop, where [x_cov] is [(channel, channel)]). *)
Definition einsum_cC_Ck_c (m w : tensor R) : result (tensor R) :=
  match shape m, shape w with
  | [c; C1], [C2; k] =>
      match bdim C1 C2 with
      | Some C =>
          Ok (mkTensor [c]
                (fun i =>
                   match i with
                   | [a] =>
                       rsum C (fun j =>
                         rsum k (fun l =>
                           get m [a; if (C1 =? 1)%nat then 0%nat else j]
                           * get w [if (C2 =? 1)%nat then 0%nat else j; l]))
                   | _ => 0
                   end))
      | None => Raise RuntimeError
      end
  | _, _ => Raise RuntimeError
  end.

(** [torch.zeros(s)]. *)
Definition zeros (s : list nat) : tensor R := mkTensor s (fun _ => 0).

(** [P[f] = v] on a 2-d [P]: row [f] is overwritten by [v], broadcast to
    the row's shape. *)
Definition set_row (P : tensor R) (f : nat) (v : tensor R) : result (tensor R) :=
  match shape P with
  | [n; C] =>
      if (f <? n)%nat then
        match broadcast_shapes [C] (shape v) with
        | Some s =>
            if list_eq_dec Nat.eq_dec s [C]
            then Ok (mkTensor [n; C]
                       (fun i =>
                          match i with
                          | [a; c] =>
                              if (a =? f)%nat then get v (bidx (shape v) [c])
                              else get P i
                          | _ => get P i
                          end))
            else Raise RuntimeError
        | None => Raise RuntimeError
        end
      else Raise IndexError
  | _ => Raise RuntimeError
  end.

(** One iteration of the loop body.  [temporal_weight] is
    [envelope_detector.temporal_filter.weight.data], of shape
    [(nfeatures, 1, kernel)], and [spatial_weight] is
    [envelope_detector.spatial_filter.weight.data], of shape
    [(nfeatures, nchannels, 1)]. *)
Definition pattern_step (x temporal_weight spatial_weight : tensor R)
    (nchannels : nat) (spatial_patterns : tensor R) (feature : nat)
  : result (tensor R) :=
  temporal_filter <- slice_one temporal_weight feature ;;
  spatial_filter <- select spatial_weight feature ;;
  temporal_filter_ <- repeat_11t_c1t temporal_filter nchannels ;;
  x_filtered <- conv1d_same x temporal_filter_ nchannels ;;
  x_cov <- covariance x_filtered true None ;;
  pattern <- einsum_cC_Ck_c x_cov spatial_filter ;;
  set_row spatial_patterns feature pattern.

(** [for feature in range(nfeatures): ...], threading [spatial_patterns]. *)
Definition spatial_patterns_loop (x temporal_weight spatial_weight : tensor R)
    (nfeatures nchannels : nat) : result (tensor R) :=
  fold_left
    (fun acc feature =>
       sp <- acc ;;
       pattern_step x temporal_weight spatial_weight nchannels sp feature)
    (seq 0 nfeatures)
    (Ok (zeros [nfeatures; nchannels])).

(** ** The covariance the specification describes *)

(** Mean of row [c] of leading element [lead] over the [T] time steps. *)
Definition row_mean (x : tensor R) (T : nat) (lead : list nat) (c : nat) : R :=
  rsum T (fun t => get x (lead ++ [c; t])) / IZR (Z.of_nat T).

(** The mean-centred sample: the row mean is subtracted when no mean is
    supplied, the supplied mean (broadcast against [x]) otherwise. *)
Definition centered (x : tensor R) (mean : option (tensor R)) (T : nat)
    (lead : list nat) (c t : nat) : R :=
  get x (lead ++ [c; t])
  - match mean with
    | None => row_mean x T lead c
    | Some m => get m (bidx (shape m) (lead ++ [c; t]))
    end.

(** [1/(T - unbiased)] times the sum over time of the products of the
    centred samples of channels [c] and [C']. *)
Definition covariance_entry (x : tensor R) (unbiased : bool)
    (mean : option (tensor R)) (T : nat) (lead : list nat) (c C' : nat) : R :=
  1 / IZR (Z.of_nat T - Z.b2z unbiased)
  * rsum T (fun t => centered x mean T lead c t * centered x mean T lead C' t).

(** A supplied mean broadcasts into the shape of [x]. *)
Definition mean_fits (x : tensor R) (mean : option (tensor R)) : Prop :=
  match mean with
  | None => True
  | Some m => broadcast_shapes (shape x) (shape m) = Some (shape x)
  end.

(** ** Concrete inputs *)

(** Two leading elements, two channels, three time steps. *)
Definition sample_batch : tensor R :=
  of_blocks 2 2 3 [[[1; 2; 3]; [2; 4; 7]]; [[0; 1; 0]; [5; 5; 5]]].

(** Two channels, a single time step. *)
Definition single_sample : tensor R := of_rows 2 1 [[5]; [7]].


(** ** The spatial pattern the specification describes *)

(** Zeros in front of the signal when any odd zero is put on the early
    side: [ceil((k - 1) / 2)]. *)
Definition early_pad_left (k : nat) : nat := (k / 2)%nat.

(** The signal of shape [(C, L)] filtered by the [k]-tap kernel of feature
    [f], every channel on its own, after [left] zeros have been put in
    front of every channel and [k - 1 - left] behind; the output has the
    length [L] of the input. *)
Definition filtered (x temporal_weight : tensor R) (C L k left f : nat)
  : tensor R :=
  mkTensor [C; L]
    (fun i =>
       match i with
       | [c; t] =>
           rsum k (fun j => get temporal_weight [f; 0%nat; j]
                            * padded x [] L left c (t + j)%nat)
       | _ => 0
       end).

(** Entry [c] of the pattern of feature [f]: the unbiased covariance of
    the filtered signal, pooled over the whole time axis, times row [f] of
    the spatial filter. *)
Definition pattern_entry (x temporal_weight spatial_weight : tensor R)
    (C L k left f c : nat) : R :=
  rsum C (fun C' =>
    covariance_entry (filtered x temporal_weight C L k left f)
      true None L [] c C'
    * get spatial_weight [f; C'; 0%nat]).

(** A one-channel signal, a two-tap kernel and a unit spatial filter. *)
Definition step_signal : tensor R := of_rows 1 2 [[0; 1]].
Definition pair_kernel : tensor R := of_blocks 1 1 2 [[[1; 1]]].
Definition unit_spatial : tensor R := of_blocks 1 1 1 [[[1]]].

(** Two channels, four samples, two features with three-tap kernels. *)
Definition demo_signal : tensor R := of_rows 2 4 [[1; 2; 0; 1]; [0; 1; 1; 3]].
Definition demo_temporal : tensor R :=
  of_blocks 2 1 3 [[[1; 0; 1]]; [[0; 1; 2]]].
Definition demo_spatial : tensor R :=
  of_blocks 2 2 1 [[[1]; [2]]; [[0]; [1]]].

(** ** The filter spectrum (notebook cell 13) *)

(** A complex number as its real and imaginary parts; [torch.abs] of a
    complex tensor takes the modulus. *)
Definition complex : Type := (R * R)%type.

Definition Cabs (z : complex) : R := sqrt (fst z * fst z + snd z * snd z).

(** Sample [j] of the last axis once it is resized from length [T] to the
    transform length: zero beyond the signal. *)
Definition resized (x : tensor R) (T : nat) (lead : list nat) (j : nat) : R :=
  if (j <? T)%nat then get x (lead ++ [j]) else 0.

(** [torch.fft.fft(x, n, dim=-1)]: the last axis is zero-padded or trimmed
    to [n] samples and transformed,
    [X[k] = sum_j x[j] * exp(-2 pi i j k / n)]. *)
Definition fft (x : tensor R) (n : Z) : result (tensor complex) :=
  match rev (shape x) with
  | [] => Raise IndexError
  | T :: rl =>
      if (n <? 1)%Z then Raise RuntimeError
      else
        let N := Z.to_nat n in
        Ok (mkTensor (rev rl ++ [N])
              (fun i =>
                 let lead := removelast i in
                 let k := last i 0%nat in
                 (rsum N (fun j => resized x T lead j
                                   * cos (2 * PI * INR (j * k) / INR N)),
                  - rsum N (fun j => resized x T lead j
                                     * sin (2 * PI * INR (j * k) / INR N)))))
  end.

(** [torch.fft.fftfreq(n, d)]: [[0, 1, ..., (n-1)//2, -(n//2), ..., -1] / (d*n)]. *)
Definition fftfreq (n : Z) (d : R) : tensor R :=
  mkTensor [Z.to_nat n]
    (fun i =>
       match i with
       | [k] =>
           IZR (if (Z.of_nat k <=? (n - 1) / 2)%Z
                then Z.of_nat k else Z.of_nat k - n)
           / (d * IZR n)
       | _ => 0
       end).

(** Python's [1 / fs]. *)
Definition py_inv (fs : R) : result R :=
  if Req_dec_T fs 0 then Raise ZeroDivisionError else Ok (1 / fs).

(** Number of entries a slice [[:m]] keeps of an axis of size [n]. *)
Definition slice_stop (n : nat) (m : Z) : nat :=
  if (m <? 0)%Z then Z.to_nat (Z.max 0 (Z.of_nat n + m))
  else Z.to_nat (Z.min m (Z.of_nat n)).

(** [x[..., :m]]. *)
Definition slice_last_to {A : Type} (x : tensor A) (m : Z) : result (tensor A) :=
  match rev (shape x) with
  | [] => Raise IndexError
  | n :: rl => Ok (mkTensor (rev rl ++ [slice_stop n m]) (get x))
  end.

(**
<<
def spectrum(signal, fs, nfreq):
    amplitudes = torch.abs(torch.fft.fft(signal, nfreq, dim=-1))
    frequencies = torch.fft.fftfreq(nfreq, d=1/fs)
    assert amplitudes.shape[-1] == frequencies.shape[-1], ...
    positive_freq = nfreq // 2
    return frequencies[:positive_freq], amplitudes[...,:positive_freq]
>> *)
Definition spectrum (signal : tensor R) (fs : R) (nfreq : Z)
  : result (tensor R * tensor R) :=
  transformed <- fft signal nfreq ;;
  let amplitudes := tmap Cabs transformed in
  d <- py_inv fs ;;
  let frequencies := fftfreq nfreq d in
  la <- shape_last amplitudes ;;
  lf <- shape_last frequencies ;;
  if negb (la =? lf)%nat then Raise AssertionError
  else
    let positive_freq := (nfreq / 2)%Z in
    f <- slice_last_to frequencies positive_freq ;;
    a <- slice_last_to amplitudes positive_freq ;;
    Ok (f, a).

(** The modulus of [sum_{j < K} w j * exp(-2 pi i j k / n)]: bin [k] of the
    length-[n] discrete Fourier transform of a [K]-tap kernel followed by
    zeros. *)
Definition dft_magnitude (w : nat -> R) (K n k : nat) : R :=
  sqrt (rsum K (fun j => w j * cos (2 * PI * INR (j * k) / INR n))
        * rsum K (fun j => w j * cos (2 * PI * INR (j * k) / INR n))
        + rsum K (fun j => w j * sin (2 * PI * INR (j * k) / INR n))
          * rsum K (fun j => w j * sin (2 * PI * INR (j * k) / INR n))).

(** ** The derived spectra (notebook cell 14) *)

Section DerivedSpectra.

Context {A : Type} (mul : A -> A -> A).

(** [torch.pow(x, 2)]: every entry times itself. *)
Definition pow2 (x : tensor A) : tensor A := tmap (fun a => mul a a) x.

(** [temporal_filters_spectrum * input_spectrum]. *)
Definition temporal_patterns_spectrum (filters input : tensor A)
  : result (tensor A) :=
  tzip mul filters input.

(** [torch.pow(temporal_filters_spectrum, 2) * input_spectrum]. *)
Definition output_spectrum (filters input : tensor A) : result (tensor A) :=
  tzip mul (pow2 filters) input.

End DerivedSpectra.

(** Two computations agree: the same exception, or tensors of the same
    shape with the same entries. *)
Definition req {A : Type} (r1 r2 : result (tensor A)) : Prop :=
  match r1, r2 with
  | Ok x, Ok y => teq x y
  | Raise e1, Raise e2 => e1 = e2
  | _, _ => False
  end.

(** The element-wise products in IEEE binary32 (the [torch.float32] of the
    notebook), rounding to nearest, ties to even. *)
Module Float32.

Definition prec : Z := 24.
Definition emax : Z := 128.

Definition mul : spec_float -> spec_float -> spec_float := SFmul prec emax.

(** [1 + 2^-23], the float after 1. *)
Definition next_after_one : spec_float := S754_finite false 8388609 (-23).

(** [3]. *)
Definition three : spec_float := S754_finite false 12582912 (-22).

(** One feature, one frequency bin. *)
Definition filters : tensor spec_float :=
  mkTensor [1; 1]%nat (fun _ => next_after_one).

Definition input : tensor spec_float :=
  mkTensor [1; 1]%nat (fun _ => three).

End Float32.

(** [einops.rearrange(x, 'c 1 t -> c t')]. *)
Definition rearrange_c1t_ct {A : Type} (x : tensor A) : result (tensor A) :=
  match shape x with
  | [c; 1%nat; t] =>
      Ok (mkTensor [c; t]
            (fun i => match i with
                      | [a; b] => get x [a; 0%nat; b]
                      | _ => get x i
                      end))
  | _ => Raise RuntimeError
  end.

(** Number of entries of a tensor of shape [s]. *)
Definition numel (s : list nat) : nat := fold_right Nat.mul 1%nat s.

(** Shape of the spectrum [scipy.signal.welch(x, fs=fs, nperseg=nperseg,
    detrend='constant', axis=-1)] returns for a real [x] of shape [s]: an
    empty input comes back with its own shape; a segment length above the
    signal length is lowered to the signal length (with a warning only);
    the one-sided spectrum of segments of [n] samples has [n // 2 + 1]
    bins. *)
Definition welch_shape (s : list nat) (nperseg : Z) : result (list nat) :=
  match rev s with
  | [] => Raise IndexError
  | L :: rl =>
      if (numel s =? 0)%nat then Ok s
      else if (nperseg <? 1)%Z then Raise ValueError
      else Ok (rev rl ++ [Z.to_nat (Z.min nperseg (Z.of_nat L) / 2 + 1)])
  end.

Section TemporalPatterns.

(** The power spectral density values of [welch]; only the shape of its
    result matters below. *)
Variable welch_psd : tensor R -> Z -> list nat -> R.

Definition welch (x : tensor R) (nperseg : Z) : result (tensor R) :=
  s <- welch_shape (shape x) nperseg ;;
  Ok (mkTensor s (welch_psd x nperseg)).

(** Cell 14 from [x_unmixed] and [temporal_filter] on; it yields
    [(input_spectrum, temporal_filters_spectrum,
      temporal_patterns_spectrum, output_spectrum)]. *)
Definition temporal_patterns_cell (x_unmixed temporal_filter : tensor R)
    (fs : R) (nyquist : Z)
  : result (tensor R * tensor R * tensor R * tensor R) :=
  pxx <- welch x_unmixed nyquist ;;
  input_spectrum <- slice_last_to pxx (-1) ;;
  fa <- spectrum temporal_filter fs nyquist ;;
  temporal_filters_spectrum <- rearrange_c1t_ct (snd fa) ;;
  tps <- temporal_patterns_spectrum Rmult temporal_filters_spectrum
           input_spectrum ;;
  out <- output_spectrum Rmult temporal_filters_spectrum input_spectrum ;;
  Ok (input_spectrum, temporal_filters_spectrum, tps, out).

End TemporalPatterns.

(** A two-tap kernel bank with one feature, and short and long signals. *)
Definition two_tap_bank : tensor R := of_blocks 1 1 2 [[[3; 4]]].
Definition short_unmixed : tensor R := of_rows 1 3 [[1; 2; 3]].
Definition long_unmixed : tensor R := of_rows 1 5 [[1; 2; 3; 4; 5]].
Definition flat_psd : tensor R -> Z -> list nat -> R := fun _ _ _ => 1.

(** ** Gradient importance: the TensorFlow cross-check (cells 22 and 39) *)

(** The last layer of [create_model_tf_grad],
    [y = layers.Conv1D(1, 1, padding="same", use_bias=False)(z)], on
    [z] of shape [(batch, time, feature)] with a kernel of shape
    [(1, feature, 1)]. *)
Definition regressor_tf (kernel z : tensor R) : result (tensor R) :=
  match shape z with
  | [B; T; F] =>
      Ok (mkTensor [B; T; 1%nat]
            (fun i =>
               match i with
               | [b; t; o] =>
                   rsum F (fun f => get z [b; t; f] * get kernel [0%nat; f; o])
               | _ => 0
               end))
  | _ => Raise ValueError
  end.

(** [tape.gradient(y_tf, z_tf)]: the gradient, with respect to [z], of the
    sum of all entries of [y].  Reverse mode through the 1x1 convolution
    hands every position [(b, t)] the kernel; the layers before [z] do not
    enter. *)
Definition tape_gradient (kernel z : tensor R) : tensor R :=
  mkTensor (shape z)
    (fun i =>
       match i with
       | [_; _; f] => get kernel [0%nat; f; 0%nat]
       | _ => 0
       end).

(** [np.sum(np.abs(g), axis=(0, 1))]. *)
Definition np_sum_abs_axis01 (g : tensor R) : result (tensor R) :=
  match shape g with
  | a :: b :: s =>
      Ok (mkTensor s
            (fun i =>
               rsum a (fun p => rsum b (fun q => Rabs (get g (p :: q :: i))))))
  | _ => Raise ValueError
  end.

(** [gradients_tf] of cell 39. *)
Definition gradients_tf (kernel z : tensor R) : result (tensor R) :=
  np_sum_abs_axis01 (tape_gradient kernel z).

(** The sum of all entries of a 3-d tensor, the scalar the tape
    differentiates. *)
Definition reduce_sum (y : tensor R) : R :=
  match shape y with
  | [B; T; No] =>
      rsum B (fun b => rsum T (fun t => rsum No (fun o => get y [b; t; o])))
  | _ => 0
  end.

(** A 3-d [z] with [h] added to its entry [(i0, j0, k0)]. *)
Definition perturb (z : tensor R) (i0 j0 k0 : nat) (h : R) : tensor R :=
  mkTensor (shape z)
    (fun idx =>
       match idx with
       | [i; j; k] =>
           if ((i =? i0) && (j =? j0) && (k =? k0))%nat
           then get z idx + h else get z idx
       | _ => get z idx
       end).

(** The scalar output as a function of the perturbation of one entry. *)
Definition output_along (kernel z : tensor R) (b0 t0 f0 : nat) (h : R) : R :=
  match regressor_tf kernel (perturb z b0 t0 f0 h) with
  | Ok y => reduce_sum y
  | Raise _ => 0
  end.

(** ** Gradient importance: the scorer *)

(** Indices [0 .. n-1] by decreasing score (insertion sort). *)
Fixpoint insert_desc (score : nat -> R) (i : nat) (l : list nat) : list nat :=
  match l with
  | [] => [i]
  | j :: l' =>
      if Rle_dec (score j) (score i) then i :: l
      else j :: insert_desc score i l'
  end.

Definition argsort_desc (score : nat -> R) (n : nat) : list nat :=
  fold_right (insert_desc score) [] (seq 0 n).

Section ImportanceScorer.

(** Modelled from the spec: the trained pipeline, which is not part of
    the notebook.  [gradient_yz x] is the gradient of the summed output
    [y] with respect to the post-downsampling activation [z] on the batch
    [x], of shape [(batch, feature, time)]. *)
Variable gradient_yz : tensor R -> tensor R.

(** Modelled from the spec: the aggregation of
    [create_importance_indices] (package [envelope_detector], not part of
    the notebook) on one batch: [|gradient|] summed over the batch and
    time axes. *)
Definition abs_gradient_sum (g : tensor R) (f : nat) : R :=
  match shape g with
  | [B; _; T] => rsum B (fun b => rsum T (fun t => Rabs (get g [b; f; t])))
  | _ => 0
  end.

(** Modelled from the spec: the running accumulator of
    [create_importance_indices] over the batches of the dataset. *)
Definition accumulate_gradients (nfeatures : nat) (batches : list (tensor R))
  : tensor R :=
  fold_left
    (fun acc x =>
       mkTensor [nfeatures]
         (fun i =>
            match i with
            | [f] => get acc [f] + abs_gradient_sum (gradient_yz x) f
            | _ => 0
            end))
    batches (zeros [nfeatures]).

(** Modelled from the spec: [create_importance_indices] (package
    [envelope_detector], not part of the notebook) at order 1.  It
    returns the importance order and the accumulated gradient
    magnitudes, in the order the notebook unpacks them. *)
Definition create_importance_indices (nfeatures : nat)
    (batches : list (tensor R)) : list nat * tensor R :=
  let gradients := accumulate_gradients nfeatures batches in
  (argsort_desc (fun f => get gradients [f]) nfeatures, gradients).

(** The sum, over all batches, batch elements and time steps, of the
    absolute gradient of feature [f]. *)
Definition total_abs_gradient (batches : list (tensor R)) (f : nat) : R :=
  fold_right (fun x s => abs_gradient_sum (gradient_yz x) f + s) 0 batches.

End ImportanceScorer.

(** The regressor of [SimpleNet] (cell 23),
    [nn.Conv1d(nfeatures, 1, kernel_size=1, bias=False)], on [z] of shape
    [(batch, feature, time)] with a weight of shape [(1, feature, 1)]. *)
Definition regressor_pt (weight z : tensor R) : result (tensor R) :=
  match shape z with
  | [B; F; T] =>
      Ok (mkTensor [B; 1%nat; T]
            (fun i =>
               match i with
               | [b; o; t] =>
                   rsum F (fun f => get weight [o; f; 0%nat] * get z [b; f; t])
               | _ => 0
               end))
  | _ => Raise RuntimeError
  end.

(** The gradient of the summed output of [SimpleNet] with respect to [z]:
    backpropagation through the 1x1 convolution hands every position
    [(b, t)] the regressor weight of the feature. *)
Definition simple_net_gradient (weight z : tensor R) : tensor R :=
  mkTensor (shape z)
    (fun i =>
       match i with
       | [_; f; _] => get weight [0%nat; f; 0%nat]
       | _ => 0
       end).

(** The summed output of [SimpleNet] as a function of the perturbation of
    one entry of [z]. *)
Definition output_along_pt (weight z : tensor R) (b0 f0 t0 : nat) (h : R) : R :=
  match regressor_pt weight (perturb z b0 f0 t0 h) with
  | Ok y => reduce_sum y
  | Raise _ => 0
  end.

(** Three features; activations of two batch elements and two time steps. *)
Definition demo_kernel_tf : tensor R := of_blocks 1 3 1 [[[2]; [-5]; [3]]].
Definition demo_weight_pt : tensor R := of_blocks 1 3 1 [[[2]; [-5]; [3]]].
Definition demo_z_tf : tensor R :=
  of_blocks 2 2 3 [[[1; 2; 3]; [4; 5; 6]]; [[0; 1; 0]; [1; 1; 1]]].
Definition demo_z_pt : tensor R :=
  of_blocks 2 3 2 [[[1; 4]; [2; 5]; [3; 6]]; [[0; 1]; [1; 1]; [0; 1]]].

(** ** Further inputs and operations of the notebook *)

(** [x + offset], [a * x]. *)
Definition tadd (x y : tensor R) : result (tensor R) := tzip Rplus x y.

(** A batch whose second channel is constant over time. *)
Definition flat_channel_batch : tensor R :=
  of_blocks 1 2 3 [[[1; 2; 4]; [7; 7; 7]]].

(** One offset per leading element and channel of [sample_batch]. *)
Definition demo_offset : tensor R :=
  of_blocks 2 2 1 [[[10]; [-3]]; [[0]; [0]]].

(** An empty time axis, and a signal without a channel axis. *)
Definition empty_time : tensor R := of_rows 2 0 [[]; []].
Definition bare_series : tensor R :=
  mkTensor [3%nat] (fun i => match i with [t] => nth t [1; 2; 3] 0 | _ => 0 end).
Definition scalar_tensor : tensor R := mkTensor [] (fun _ => 5).

(** ** Layouts (notebook cells 3, 26 and 28) *)

(** [einops.rearrange(data, 'b c t -> c (b t)')]: the trials are laid end
    to end along the time axis. *)
Definition rearrange_bct_c_bt {A : Type} (data : tensor A) : result (tensor A) :=
  match shape data with
  | [B; C; T] =>
      Ok (mkTensor [C; (B * T)%nat]
            (fun i => match i with
                      | [c; p] => get data [(p / T)%nat; c; (p mod T)%nat]
                      | _ => get data i
                      end))
  | _ => Raise RuntimeError
  end.

(** [einops.rearrange(data, 'b c t -> b t c')], the layout of [data_tf]. *)
Definition rearrange_bct_btc {A : Type} (data : tensor A) : result (tensor A) :=
  match shape data with
  | [B; C; T] =>
      Ok (mkTensor [B; T; C]
            (fun i => match i with
                      | [b; t; c] => get data [b; c; t]
                      | _ => get data i
                      end))
  | _ => Raise RuntimeError
  end.

(**
<<
def tensor_tf2pt(x):
    return einops.rearrange(x, 'b t c -> b c t')
>> *)
Definition tensor_tf2pt {A : Type} (x : tensor A) : result (tensor A) :=
  match shape x with
  | [B; T; C] =>
      Ok (mkTensor [B; C; T]
            (fun i => match i with
                      | [b; c; t] => get x [b; t; c]
                      | _ => get x i
                      end))
  | _ => Raise RuntimeError
  end.

(**
<<
def convert_conv_weights(x):
    return einops.rearrange(x, 'k i o -> o i k')
>>
    The three axes are reversed. *)
Definition convert_conv_weights {A : Type} (x : tensor A) : result (tensor A) :=
  match shape x with
  | [k; i; o] => Ok (mkTensor [o; i; k] (fun idx => get x (rev idx)))
  | _ => Raise RuntimeError
  end.

(** Mean of channel [c] over all trials and time steps. *)
Definition pooled_mean (data : tensor R) (B T c : nat) : R :=
  rsum B (fun b => rsum T (fun t => get data [b; c; t]))
  / IZR (Z.of_nat (B * T)).

(** The covariance of channels [c] and [C'] pooled over all trials and
    time steps. *)
Definition pooled_covariance_entry (data : tensor R) (unbiased : bool)
    (B T c C' : nat) : R :=
  1 / IZR (Z.of_nat (B * T) - Z.b2z unbiased)
  * rsum B (fun b => rsum T (fun t =>
      (get data [b; c; t] - pooled_mean data B T c)
      * (get data [b; C'; t] - pooled_mean data B T C'))).

(** Two trials of two channels and two samples. *)
Definition two_trials : tensor R :=
  of_blocks 2 2 2 [[[1; 2]; [0; 1]]; [[3; 5]; [1; 0]]].

(** ** The TensorFlow model (notebook cells 21 and 22) *)

(** [layers.Conv1D(n, 1, padding="same", use_bias=False)] on an input of
    shape [(batch, time, channel)] with a kernel of shape
    [(1, channel, n)]. *)
Definition conv1x1_tf (kernel x : tensor R) : result (tensor R) :=
  match shape x, shape kernel with
  | [B; T; Cin], [1%nat; Cin'; Cout] =>
      if (Cin =? Cin')%nat then
        Ok (mkTensor [B; T; Cout]
              (fun i =>
                 match i with
                 | [b; t; o] =>
                     rsum Cin (fun c => get x [b; t; c] * get kernel [0%nat; c; o])
                 | _ => 0
                 end))
      else Raise ValueError
  | _, _ => Raise ValueError
  end.

(** [layers.BatchNormalization(center=False, scale=False, epsilon=eps)]
    called with [training=False]: every entry is normalised with the
    moving statistics of the layer. *)
Definition batch_normalization (moving_mean moving_variance eps : R)
    (x : tensor R) : tensor R :=
  tmap (fun v => (v - moving_mean) / sqrt (moving_variance + eps)) x.

(** The layers of the notebook are never trained and only the convolution
    kernels are set, so the moving statistics keep their initial values
    0 and 1; [epsilon=1e-5]. *)
Definition batch_normalization_fresh (x : tensor R) : tensor R :=
  batch_normalization 0 1 (1 / 100000) x.

(** [layers.Conv1D(n, k, padding="same", groups=n, use_bias=False)] on
    [(batch, time, n)] with a kernel of shape [(k, 1, n)]: every feature
    is correlated with its own kernel; [(k - 1) // 2] zeros are put in
    front of the time axis and the rest behind it. *)
Definition depthwise_conv_tf (kernel x : tensor R) : result (tensor R) :=
  match shape x, shape kernel with
  | [B; T; F], [k; 1%nat; F'] =>
      if ((F =? F') && (0 <? k))%nat then
        Ok (mkTensor [B; T; F]
              (fun i =>
                 match i with
                 | [b; t; f] =>
                     rsum k (fun j =>
                       get kernel [j; 0%nat; f]
                       * (if ((same_pad_left k <=? t + j)
                              && (t + j <? same_pad_left k + T))%nat
                          then get x [b; (t + j - same_pad_left k)%nat; f]
                          else 0))
                 | _ => 0
                 end))
      else Raise ValueError
  | _, _ => Raise ValueError
  end.

(** [layers.LeakyReLU(alpha)]: [v] where [v > 0], [alpha * v] elsewhere. *)
Definition leaky_relu (alpha v : R) : R :=
  if Rlt_dec 0 v then v else alpha * v.

(** [layers.AveragePooling1D(pool_size=p, strides=p)] (no padding): the
    means of consecutive blocks of [p] time steps; a trailing incomplete
    block is dropped, and a time axis shorter than the pool is rejected. *)
Definition average_pooling1d (p : nat) (x : tensor R) : result (tensor R) :=
  match shape x with
  | [B; T; F] =>
      if ((0 <? p) && (p <=? T))%nat then
        Ok (mkTensor [B; ((T - p) / p + 1)%nat; F]
              (fun i =>
                 match i with
                 | [b; t; f] =>
                     rsum p (fun j => get x [b; (t * p + j)%nat; f])
                     / IZR (Z.of_nat p)
                 | _ => 0
                 end))
      else Raise ValueError
  | _ => Raise ValueError
  end.

(** The input check of [keras.Input(shape=(npoints, nchannels))]. *)
Definition check_input (npoints nchannels : nat) (inputs : tensor R)
  : result unit :=
  match shape inputs with
  | [_; T; C] =>
      if ((T =? npoints) && (C =? nchannels))%nat then Ok tt
      else Raise ValueError
  | _ => Raise ValueError
  end.

(** [create_model_tf_grad(...)] applied to a batch, with the kernels that
    cell 37 sets on layers 1, 3 and 7: it returns [(z, y)]. *)
Definition model_tf_grad (npoints nchannels downsample_coef : nat)
    (spatial_kernel temporal_kernel regressor_kernel inputs : tensor R)
  : result (tensor R * tensor R) :=
  _ <- check_input npoints nchannels inputs ;;
  a <- conv1x1_tf spatial_kernel inputs ;;
  let b := batch_normalization_fresh a in
  c <- depthwise_conv_tf temporal_kernel b ;;
  let d := batch_normalization_fresh c in
  let e := tmap (leaky_relu (-1)) d in
  z <- average_pooling1d downsample_coef e ;;
  y <- regressor_tf regressor_kernel z ;;
  Ok (z, y).

(** A model with two channels, two features, three-tap temporal kernels
    and a pool of two, on one trial of four time steps. *)
Definition tf_spatial_kernel : tensor R :=
  of_blocks 1 2 2 [[[1; 0]; [1; -1]]].
Definition tf_temporal_kernel : tensor R :=
  of_blocks 3 1 2 [[[1; 0]]; [[0; 1]]; [[-1; 0]]].
Definition tf_regressor_kernel : tensor R := of_blocks 1 2 1 [[[2]; [-5]]].
Definition tf_inputs : tensor R :=
  of_blocks 1 4 2 [[[1; 0]; [2; 1]; [0; 1]; [1; 3]]].

(** [x'] has the shape of [x] and [a] times its entries. *)
Definition scaled (a : R) (x x' : tensor R) : Prop :=
  shape x' = shape x /\ forall idx, get x' idx = a * get x idx.

(** ** The discrepancy measure (notebook cell 2) *)

(** The value of a floating-point quotient: [torch] division never raises,
    a zero divisor gives [nan] or an infinity. *)
Inductive fvalue : Type :=
| Finite (r : R)
| PosInf
| NegInf
| NaN.

Definition float_div (a b : R) : fvalue :=
  if Req_dec_T b 0 then
    if Req_dec_T a 0 then NaN
    else if Rlt_dec 0 a then PosInf else NegInf
  else Finite (a / b).

(** The sum of [f] over all indices of a tensor of shape [s]. *)
Fixpoint sum_over (s : list nat) (f : list nat -> R) : R :=
  match s with
  | [] => f []
  | n :: s' => rsum n (fun i => sum_over s' (fun idx => f (i :: idx)))
  end.

(** [torch.linalg.norm(x)]: the 2-norm of the flattened tensor. *)
Definition linalg_norm (x : tensor R) : R :=
  sqrt (sum_over (shape x) (fun i => get x i * get x i)).

(**
<<
def diff(x, y):
    return torch.linalg.norm(x - y) / torch.sqrt(torch.linalg.norm(x) * torch.linalg.norm(y))
>> *)
Definition diff (x y : tensor R) : result fvalue :=
  d <- tzip Rminus x y ;;
  Ok (float_div (linalg_norm d) (sqrt (linalg_norm x * linalg_norm y))).

(** Two patterns of one feature and two channels, and the zero pattern. *)
Definition pattern_a : tensor R := of_rows 1 2 [[3; 4]].
Definition pattern_b : tensor R := of_rows 1 2 [[3; 0]].
Definition pattern_zero : tensor R := of_rows 1 2 [[0; 0]].

(** A two-channel bank of two-tap kernels whose single non-zero tap is at
    position [same_pad_left 2 = 0]. *)
Definition impulse_bank : tensor R := of_blocks 2 1 2 [[[1; 0]]; [[1; 0]]].

(** Two channels, one time step each, with one feature. *)
Definition one_feature_temporal : tensor R := of_blocks 1 1 2 [[[1; 1]]].
Definition one_feature_spatial : tensor R := of_blocks 1 2 1 [[[1]; [1]]].

(** ** The batched spatial-pattern covariance

    [create_spatial_patterns(data, spatial_filters, temporal_filters,
    nbatch=10)] of cell 11 is called on the [(batch, channel, time)] array
    [data]; the function belongs to the package [envelope_detector] and is
    not part of the notebook. *)












(** * Properties *)

(** ** Sums, indices and broadcasting *)

Lemma rsum_ext (n : nat) (f g : nat -> R) :
  (forall t, (t < n)%nat -> f t = g t) -> rsum n f = rsum n g.
Proof.
  induction n as [|n IH]; intros H; simpl.
  - reflexivity.
  - rewrite IH by (intros; apply H; lia).
    rewrite H by lia. reflexivity.
Qed.

Lemma rsum_zero (n : nat) (f : nat -> R) :
  (forall t, (t < n)%nat -> f t = 0) -> rsum n f = 0.
Proof.
  induction n as [|n IH]; intros H; simpl.
  - reflexivity.
  - rewrite IH by (intros; apply H; lia).
    rewrite H by lia. lra.
Qed.

Lemma rsum_plus (n : nat) (f g : nat -> R) :
  rsum n (fun t => f t + g t) = rsum n f + rsum n g.
Proof. induction n as [|n IH]; simpl; [lra | rewrite IH; lra]. Qed.

Lemma rsum_nonneg (n : nat) (f : nat -> R) :
  (forall t, (t < n)%nat -> 0 <= f t) -> 0 <= rsum n f.
Proof.
  induction n as [|n IH]; intros H; simpl.
  - lra.
  - assert (0 <= rsum n f) by (apply IH; intros; apply H; lia).
    assert (0 <= f n) by (apply H; lia). lra.
Qed.

Lemma rsum_app (n m : nat) (f : nat -> R) :
  rsum (n + m) f = rsum n f + rsum m (fun t => f (n + t)%nat).
Proof.
  induction m as [|m IH].
  - rewrite Nat.add_0_r. simpl. lra.
  - rewrite Nat.add_succ_r. simpl. rewrite IH. lra.
Qed.

Lemma split_last2_app (l : list nat) (a b : nat) :
  split_last2 (l ++ [a; b]) = Some (l, a, b).
Proof.
  unfold split_last2. rewrite rev_app_distr. simpl.
  rewrite rev_involutive. reflexivity.
Qed.


Lemma Forall2_lt_rev (i s : list nat) :
  Forall2 lt i s -> Forall2 lt (rev i) (rev s).
Proof.
  induction 1; simpl.
  - constructor.
  - apply Forall2_app; [assumption | repeat constructor; assumption].
Qed.

Lemma bidx_rev_valid (s i : list nat) :
  Forall2 lt i s -> bidx_rev s i = i.
Proof.
  induction 1 as [|k d i s Hk _ IH]; simpl.
  - reflexivity.
  - rewrite IH. destruct (Nat.eqb_spec d 1).
    + f_equal. lia.
    + reflexivity.
Qed.

Lemma bidx_valid (s i : list nat) : valid_index i s -> bidx s i = i.
Proof.
  intros H. unfold bidx.
  rewrite bidx_rev_valid by (apply Forall2_lt_rev; exact H).
  apply rev_involutive.
Qed.

Lemma valid_index_app (i1 i2 s1 s2 : list nat) :
  valid_index i1 s1 -> valid_index i2 s2 -> valid_index (i1 ++ i2) (s1 ++ s2).
Proof. apply Forall2_app. Qed.

(** The index read in a [keepdims] reduction of the last axis. *)
Lemma bidx_keepdims (ls lead : list nat) (t : nat) :
  valid_index lead ls -> bidx (ls ++ [1%nat]) (lead ++ [t]) = lead ++ [0%nat].
Proof.
  intros H. unfold bidx. rewrite !rev_app_distr. simpl.
  rewrite bidx_rev_valid by (apply Forall2_lt_rev; exact H).
  rewrite rev_involutive. reflexivity.
Qed.

Lemma bshape_rev_refl (s : list nat) : bshape_rev s s = Some s.
Proof.
  induction s as [|a s IH]; simpl.
  - reflexivity.
  - rewrite IH, Nat.eqb_refl. reflexivity.
Qed.

Lemma broadcast_shapes_refl (s : list nat) : broadcast_shapes s s = Some s.
Proof.
  unfold broadcast_shapes. rewrite bshape_rev_refl. simpl.
  rewrite rev_involutive. reflexivity.
Qed.

Lemma broadcast_shapes_keepdims (ls : list nat) (T : nat) :
  broadcast_shapes (ls ++ [T]) (ls ++ [1%nat]) = Some (ls ++ [T]).
Proof.
  unfold broadcast_shapes. rewrite !rev_app_distr. simpl.
  rewrite bshape_rev_refl.
  destruct (Nat.eqb_spec T 1) as [->|]; simpl;
    rewrite rev_involutive; reflexivity.
Qed.

Lemma shape_mean_last (x : tensor R) (l : list nat) (T : nat) :
  shape x = l ++ [T] -> shape (mean_last x) = l ++ [1%nat].
Proof.
  intros H. unfold mean_last. rewrite H, rev_app_distr. simpl.
  rewrite rev_involutive. reflexivity.
Qed.

Lemma get_mean_last (x : tensor R) (l i : list nat) (T k : nat) :
  shape x = l ++ [T] ->
  get (mean_last x) (i ++ [k])
  = rsum T (fun t => get x (i ++ [t])) / IZR (Z.of_nat T).
Proof.
  intros H. unfold mean_last. rewrite H, rev_app_distr. simpl.
  rewrite removelast_last. reflexivity.
Qed.

(** ** The covariance estimator *)

Lemma app_two (A : Type) (l : list A) (a b : A) : l ++ [a; b] = (l ++ [a]) ++ [b].
Proof. rewrite <- app_assoc. reflexivity. Qed.

(** What the body of [covariance] evaluates to on a well-shaped input. *)
Lemma covariance_unfold (x : tensor R) (unbiased : bool)
    (mean : option (tensor R)) (ls : list nat) (C T : nat) :
  shape x = ls ++ [C; T] ->
  (Z.of_nat T - Z.b2z unbiased <> 0)%Z ->
  mean_fits x mean ->
  exists xc : tensor R,
    shape xc = ls ++ [C; T]
    /\ (forall lead c t,
          valid_index lead ls -> (c < C)%nat -> (t < T)%nat ->
          get xc (lead ++ [c; t]) = centered x mean T lead c t)
    /\ covariance x unbiased mean
       = Ok (scale (1 / IZR (Z.of_nat T - Z.b2z unbiased))
               (mkTensor (ls ++ [C; C])
                  (fun i =>
                     match split_last2 i with
                     | Some (lead, c, C') =>
                         rsum T (fun t => get xc (lead ++ [c; t])
                                          * get xc (lead ++ [C'; t]))
                     | None => 0
                     end))).
Proof.
  intros Hs Hn Hm.
  set (m := match mean with None => mean_last x | Some m0 => m0 end).
  assert (Hb : broadcast_shapes (shape x) (shape m) = Some (shape x)).
  { destruct mean as [m0|]; simpl in Hm; subst m.
    - exact Hm.
    - rewrite (shape_mean_last x (ls ++ [C]) T) by (rewrite Hs; apply app_two).
      rewrite Hs, app_two. apply broadcast_shapes_keepdims. }
  exists (mkTensor (shape x)
            (fun i => get x (bidx (shape x) i) - get m (bidx (shape m) i))).
  split; [exact Hs|]. split.
  - intros lead c t Hl Hc Ht. simpl.
    assert (Hv : valid_index (lead ++ [c; t]) (shape x)).
    { rewrite Hs. apply valid_index_app; [exact Hl|].
      repeat constructor; assumption. }
    rewrite (bidx_valid _ _ Hv). unfold centered. f_equal.
    destruct mean as [m0|]; subst m.
    + reflexivity.
    + rewrite (shape_mean_last x (ls ++ [C]) T) by (rewrite Hs; apply app_two).
      rewrite (app_two _ lead c t).
      rewrite bidx_keepdims
        by (apply valid_index_app; [exact Hl | repeat constructor; exact Hc]).
      rewrite (get_mean_last x (ls ++ [C]) (lead ++ [c]) T 0)
        by (rewrite Hs; apply app_two).
      unfold row_mean. f_equal. apply rsum_ext. intros t' _.
      rewrite <- app_assoc. reflexivity.
  - unfold covariance. fold m. unfold tzip. rewrite Hb. simpl.
    unfold shape_last. simpl. rewrite Hs, rev_app_distr. simpl.
    unfold py_div.
    destruct (Z.eqb_spec (Z.of_nat T - Z.b2z unbiased) 0) as [E|_];
      [contradiction|].
    simpl. unfold einsum_ct_Ct_cC. simpl.
    rewrite split_last2_app. simpl. reflexivity.
Qed.

Lemma covariance_entries (x : tensor R) (unbiased : bool)
    (mean : option (tensor R)) (ls : list nat) (C T : nat) :
  shape x = ls ++ [C; T] ->
  (Z.of_nat T - Z.b2z unbiased <> 0)%Z ->
  mean_fits x mean ->
  exists r : tensor R,
    covariance x unbiased mean = Ok r
    /\ shape r = ls ++ [C; C]
    /\ forall lead c C',
         valid_index lead ls -> (c < C)%nat -> (C' < C)%nat ->
         get r (lead ++ [c; C'])
         = covariance_entry x unbiased mean T lead c C'.
Proof.
  intros Hs Hn Hm.
  destruct (covariance_unfold x unbiased mean ls C T Hs Hn Hm)
    as (xc & _ & Hget & Hcov).
  eexists. split; [exact Hcov|]. split; [reflexivity|].
  intros lead c C' Hl Hc HC'. simpl.
  rewrite split_last2_app. unfold covariance_entry. f_equal.
  apply rsum_ext. intros t Ht.
  rewrite !Hget by assumption. reflexivity.
Qed.

(** The entry of one leading element only reads that leading element. *)
Lemma covariance_entry_local (x x' : tensor R) (unbiased : bool)
    (mean : option (tensor R)) (T : nat) (lead : list nat) (c C' : nat) :
  (forall k t, get x' (lead ++ [k; t]) = get x (lead ++ [k; t])) ->
  covariance_entry x' unbiased mean T lead c C'
  = covariance_entry x unbiased mean T lead c C'.
Proof.
  intros H. unfold covariance_entry. f_equal. apply rsum_ext. intros t _.
  unfold centered, row_mean. rewrite !H.
  destruct mean as [m|]; [reflexivity|].
  rewrite (rsum_ext T (fun t0 => get x' (lead ++ [c; t0]))
                      (fun t0 => get x (lead ++ [c; t0])))
    by (intros; apply H).
  rewrite (rsum_ext T (fun t0 => get x' (lead ++ [C'; t0]))
                      (fun t0 => get x (lead ++ [C'; t0])))
    by (intros; apply H).
  reflexivity.
Qed.

(** C2.  On an array of shape [(..., C, T)] with [T - unbiased <> 0] the
    estimator returns the [(..., C, C)] array whose entry [(c, C')] of the
    leading element [lead] is [1/(T - unbiased)] times the sum over time of
    the products of the centred samples of channels [c] and [C'] of that
    same leading element; centring subtracts the row mean over time, or the
    supplied mean when there is one.  Leading elements are independent:
    changing the array anywhere outside the leading element [lead] leaves
    the [(C, C)] block of [lead] unchanged. *)
Theorem covariance_formula (x : tensor R) (unbiased : bool)
    (mean : option (tensor R)) (ls : list nat) (C T : nat) :
  shape x = ls ++ [C; T] ->
  (Z.of_nat T - Z.b2z unbiased <> 0)%Z ->
  mean_fits x mean ->
  exists r : tensor R,
    covariance x unbiased mean = Ok r
    /\ shape r = ls ++ [C; C]
    /\ (forall lead c C',
          valid_index lead ls -> (c < C)%nat -> (C' < C)%nat ->
          get r (lead ++ [c; C'])
          = covariance_entry x unbiased mean T lead c C')
    /\ (forall (x' : tensor R) (lead : list nat),
          shape x' = shape x ->
          valid_index lead ls ->
          (forall k t, get x' (lead ++ [k; t]) = get x (lead ++ [k; t])) ->
          exists r' : tensor R,
            covariance x' unbiased mean = Ok r'
            /\ forall c C', (c < C)%nat -> (C' < C)%nat ->
                 get r' (lead ++ [c; C']) = get r (lead ++ [c; C'])).
Proof.
  intros Hs Hn Hm.
  destruct (covariance_entries x unbiased mean ls C T Hs Hn Hm)
    as (r & Hr & Hsr & Hget).
  exists r. repeat split; try assumption.
  intros x' lead Hs' Hl Hx'.
  assert (Hm' : mean_fits x' mean).
  { destruct mean; simpl in *; [rewrite Hs'; exact Hm | exact I]. }
  rewrite Hs in Hs'.
  destruct (covariance_entries x' unbiased mean ls C T Hs' Hn Hm')
    as (r' & Hr' & _ & Hget').
  exists r'. split; [exact Hr'|].
  intros c C' Hc HC'.
  rewrite Hget, Hget' by assumption.
  apply covariance_entry_local. exact Hx'.
Qed.

(** C9.  Whatever the input, the normalisation and the supplied mean, a
    returned covariance is symmetric in its last two axes, in every
    leading element. *)
Theorem covariance_symmetric (x : tensor R) (unbiased : bool)
    (mean : option (tensor R)) (r : tensor R) :
  covariance x unbiased mean = Ok r ->
  forall (lead : list nat) (c C' : nat),
    get r (lead ++ [c; C']) = get r (lead ++ [C'; c]).
Proof.
  unfold covariance. intros H lead c C'.
  destruct (tzip Rminus x _) as [xc|e]; simpl in H; [|discriminate].
  destruct (shape_last xc) as [T|e]; simpl in H; [|discriminate].
  destruct (py_div 1 _) as [k|e]; simpl in H; [|discriminate].
  unfold einsum_ct_Ct_cC in H.
  destruct (split_last2 (shape xc)) as [[[ls C] T']|]; simpl in H;
    [|discriminate].
  inversion H; subst r; clear H. simpl.
  rewrite !split_last2_app. f_equal.
  apply rsum_ext. intros t _. apply Rmult_comm.
Qed.

(** C6 (amended).  On a signal whose time axis has length 1 the unbiased
    estimator fails: Python's integer division [1 / (1 - True)] raises
    [ZeroDivisionError] before any matrix is built. *)
Theorem covariance_single_sample_unbiased (x : tensor R) (ls : list nat) :
  shape x = ls ++ [1%nat] ->
  covariance x true None = Raise ZeroDivisionError.
Proof.
  intros Hs. unfold covariance, tzip.
  rewrite (shape_mean_last x ls 1 Hs), Hs, broadcast_shapes_refl. simpl.
  unfold shape_last. simpl. rewrite rev_app_distr. reflexivity.
Qed.

(** C10.  On a signal whose time axis has length 1 the biased estimator
    without a supplied mean returns the zero [(..., C, C)] array. *)
Theorem covariance_single_sample_biased (x : tensor R) (ls : list nat) (C : nat) :
  shape x = ls ++ [C; 1%nat] ->
  exists r : tensor R,
    covariance x false None = Ok r
    /\ shape r = ls ++ [C; C]
    /\ forall lead c C',
         valid_index lead ls -> (c < C)%nat -> (C' < C)%nat ->
         get r (lead ++ [c; C']) = 0.
Proof.
  intros Hs.
  destruct (covariance_entries x false None ls C 1 Hs) as (r & Hr & Hsr & Hget).
  - simpl. lia.
  - exact I.
  - exists r. repeat split; try assumption.
    intros lead c C' Hl Hc HC'. rewrite Hget by assumption.
    unfold covariance_entry, centered, row_mean. simpl. field.
Qed.

(** *** Concrete runs of the estimator *)

Lemma covariance_formula_witness :
  exists r : tensor R,
    covariance sample_batch true None = Ok r
    /\ shape r = [2; 2; 2]%nat
    /\ get r [0; 0; 1]%nat = 5 / 2
    /\ get r [1; 0; 1]%nat = 0.
Proof.
  destruct (covariance_formula sample_batch true None [2%nat] 2 3)
    as (r & Hr & Hs & Hget & _).
  - reflexivity.
  - simpl. lia.
  - exact I.
  - exists r. split; [exact Hr|]. split; [exact Hs|]. split.
    + change (get r ([0%nat] ++ [0%nat; 1%nat]) = 5 / 2).
      rewrite Hget by (repeat constructor).
      unfold covariance_entry, centered, row_mean. simpl. field.
    + change (get r ([1%nat] ++ [0%nat; 1%nat]) = 0).
      rewrite Hget by (repeat constructor).
      unfold covariance_entry, centered, row_mean. simpl. field.
Defined.

Lemma covariance_symmetric_witness :
  exists r : tensor R,
    covariance sample_batch true None = Ok r
    /\ get r [0; 0; 1]%nat = get r [0; 1; 0]%nat.
Proof.
  destruct (covariance_entries sample_batch true None [2%nat] 2 3)
    as (r & Hr & _).
  - reflexivity.
  - simpl. lia.
  - exact I.
  - exists r. split; [exact Hr|].
    exact (covariance_symmetric sample_batch true None r Hr [0%nat] 0%nat 1%nat).
Defined.

Lemma covariance_single_sample_unbiased_witness :
  shape single_sample = [2%nat] ++ [1%nat]
  /\ covariance single_sample true None = Raise ZeroDivisionError.
Proof.
  split; [reflexivity|].
  apply (covariance_single_sample_unbiased single_sample [2%nat]).
  reflexivity.
Defined.

(** C6, as stated, fails: the exception raised on a single time sample is
    not the specification's [DegenerateInputError]. *)
Lemma covariance_single_sample_not_degenerate_error :
  covariance single_sample true None <> Raise DegenerateInputError.
Proof.
  unfold covariance, tzip, single_sample. simpl. discriminate.
Qed.

Lemma covariance_single_sample_biased_witness :
  exists r : tensor R,
    covariance single_sample false None = Ok r
    /\ get r [0; 1]%nat = 0 /\ get r [1; 1]%nat = 0.
Proof.
  destruct (covariance_single_sample_biased single_sample [] 2)
    as (r & Hr & _ & Hget).
  - reflexivity.
  - exists r. split; [exact Hr|]. split.
    + apply (Hget [] 0%nat 1%nat); repeat constructor.
    + apply (Hget [] 1%nat 1%nat); repeat constructor.
Defined.

(** ** The spatial-pattern loop *)

Lemma covariance_entry_ext (x x' : tensor R) (unbiased : bool) (T : nat)
    (lead : list nat) (c C' : nat) :
  (forall t, (t < T)%nat -> get x' (lead ++ [c; t]) = get x (lead ++ [c; t])) ->
  (forall t, (t < T)%nat -> get x' (lead ++ [C'; t]) = get x (lead ++ [C'; t])) ->
  covariance_entry x' unbiased None T lead c C'
  = covariance_entry x unbiased None T lead c C'.
Proof.
  intros H1 H2. unfold covariance_entry. f_equal. apply rsum_ext. intros t Ht.
  unfold centered, row_mean.
  rewrite (rsum_ext T (fun t0 => get x' (lead ++ [c; t0]))
                      (fun t0 => get x (lead ++ [c; t0]))) by exact H1.
  rewrite (rsum_ext T (fun t0 => get x' (lead ++ [C'; t0]))
                      (fun t0 => get x (lead ++ [C'; t0]))) by exact H2.
  rewrite H1, H2 by assumption. reflexivity.
Qed.

(** The depthwise call of the loop: every channel is correlated with the
    same kernel, and the output has the shape of the input. *)
Lemma conv1d_same_depthwise (x w : tensor R) (C L k : nat) :
  shape x = [C; L] -> shape w = [C; 1%nat; k] ->
  (0 < C)%nat -> (0 < L)%nat -> (0 < k)%nat ->
  exists y : tensor R,
    conv1d_same x w C = Ok y
    /\ shape y = [C; L]
    /\ forall c t, (c < C)%nat ->
         get y [c; t]
         = rsum k (fun j => get w [c; 0%nat; j]
                            * padded x [] L (same_pad_left k) c (t + j)%nat).
Proof.
  intros Hx Hw HC HL Hk. unfold conv1d_same.
  rewrite Hx, Hw.
  change (split_last2 [C; L]) with (Some (@nil nat, C, L)).
  cbv iota beta.
  replace ((length (@nil nat) <=? 1) && (0 <? C) && (C =? C * 1)
           && (C mod C =? 0) && (0 <? C) && (0 <? L) && (0 <? k)
           && (0 <? C))%nat with true.
  2:{ symmetry. rewrite Nat.mul_1_r, Nat.eqb_refl.
      rewrite Nat.Div0.mod_same. simpl.
      destruct (Nat.ltb_spec 0 C); [|lia].
      destruct (Nat.ltb_spec 0 L); [|lia].
      destruct (Nat.ltb_spec 0 k); [|lia]. reflexivity. }
  eexists. split; [reflexivity|]. split; [reflexivity|].
  intros c t Hc. simpl.
  rewrite Nat.div_same by lia. rewrite Nat.div_1_r, Nat.mul_1_r, Nat.add_0_r.
  lra.
Qed.

(** The filtering of one iteration: the kernel of the feature is repeated
    over the channels, and the filtered signal has the shape of the
    signal. *)
Lemma loop_filter_ok (x tw : tensor R) (nf C L k f : nat) :
  shape x = [C; L] -> shape tw = [nf; 1%nat; k] ->
  (0 < C)%nat -> (0 < L)%nat -> (0 < k)%nat -> (f < nf)%nat ->
  exists temporal_filter temporal_filter_ x_filtered : tensor R,
    slice_one tw f = Ok temporal_filter
    /\ repeat_11t_c1t temporal_filter C = Ok temporal_filter_
    /\ conv1d_same x temporal_filter_ C = Ok x_filtered
    /\ shape x_filtered = shape x
    /\ forall c t, (c < C)%nat ->
         get x_filtered [c; t]
         = get (filtered x tw C L k (same_pad_left k) f) [c; t].
Proof.
  intros Hx Htw HC HL Hk Hf.
  set (tf := mkTensor [1%nat; 1%nat; k]
               (fun i => match i with
                         | a :: i' => get tw ((f + a)%nat :: i')
                         | [] => get tw []
                         end)).
  set (tf_ := mkTensor [C; 1%nat; k]
                (fun i => match i with
                          | [_; _; j] => get tf [0%nat; 0%nat; j]
                          | _ => get tf i
                          end)).
  destruct (conv1d_same_depthwise x tf_ C L k Hx eq_refl HC HL Hk)
    as (y & Hy & Hsy & Hgy).
  exists tf, tf_, y. split.
  { unfold slice_one. rewrite Htw.
    destruct (Nat.ltb_spec f nf) as [_|]; [reflexivity | lia]. }
  split; [reflexivity|]. split; [exact Hy|].
  split; [rewrite Hx; exact Hsy|].
  intros c t Hc. rewrite Hgy by exact Hc. simpl.
  rewrite Nat.add_0_r. reflexivity.
Qed.

(** One iteration fills row [feature] and leaves the other rows alone. *)
Lemma pattern_step_ok (x tw sw sp : tensor R) (nf C L k f : nat) :
  shape x = [C; L] -> shape tw = [nf; 1%nat; k] -> shape sw = [nf; C; 1%nat] ->
  shape sp = [nf; C] ->
  (0 < C)%nat -> (2 <= L)%nat -> (0 < k)%nat -> (f < nf)%nat ->
  exists sp' : tensor R,
    pattern_step x tw sw C sp f = Ok sp'
    /\ shape sp' = [nf; C]
    /\ (forall c, (c < C)%nat ->
          get sp' [f; c] = pattern_entry x tw sw C L k (same_pad_left k) f c)
    /\ (forall f' c, f' <> f -> get sp' [f'; c] = get sp [f'; c]).
Proof.
  intros Hx Htw Hsw Hsp HC HL Hk Hf.
  unfold pattern_step.
  unfold slice_one. rewrite Htw.
  destruct (Nat.ltb_spec f nf) as [_|]; [|lia]. simpl bind.
  unfold select. rewrite Hsw.
  destruct (Nat.ltb_spec f nf) as [_|]; [|lia]. simpl bind.
  unfold repeat_11t_c1t. simpl shape. simpl bind.
  match goal with
  | |- context [conv1d_same x ?w C] =>
      destruct (conv1d_same_depthwise x w C L k Hx eq_refl HC) as (y & Hy & Hsy & Hgy);
        [lia | exact Hk |]
  end.
  rewrite Hy. simpl bind.
  destruct (covariance_entries y true None [] C L Hsy) as (r & Hr & Hsr & Hgr).
  { simpl. lia. }
  { exact I. }
  rewrite Hr. simpl bind. simpl in Hsr.
  unfold einsum_cC_Ck_c. rewrite Hsr. simpl shape. cbv iota beta.
  unfold bdim. rewrite Nat.eqb_refl. simpl bind.
  unfold set_row. rewrite Hsp.
  destruct (Nat.ltb_spec f nf) as [_|]; [|lia]. simpl shape.
  rewrite broadcast_shapes_refl.
  destruct (list_eq_dec Nat.eq_dec [C] [C]) as [_|ne]; [|contradiction].
  eexists. split; [reflexivity|]. split; [reflexivity|]. split.
  - intros c Hc. simpl get. rewrite Nat.eqb_refl.
    unfold pattern_entry. apply rsum_ext. intros j Hj. simpl.
    assert (Ec : (if (C =? 1)%nat then 0%nat else c) = c).
    { destruct (Nat.eqb_spec C 1); [lia | reflexivity]. }
    assert (Ej : (if (C =? 1)%nat then 0%nat else j) = j).
    { destruct (Nat.eqb_spec C 1); [lia | reflexivity]. }
    rewrite Ec, Ej.
    change [c; j] with ([] ++ [c; j]).
    rewrite Hgr by (try constructor; assumption).
    rewrite (covariance_entry_ext (filtered x tw C L k (same_pad_left k) f) y).
    + lra.
    + intros t Ht. simpl. rewrite Hgy by exact Hc. simpl.
      rewrite Nat.add_0_r. reflexivity.
    + intros t Ht. simpl. rewrite Hgy by exact Hj. simpl.
      rewrite Nat.add_0_r. reflexivity.
  - intros f' c Hne. simpl get.
    destruct (Nat.eqb_spec f' f); [contradiction | reflexivity].
Qed.

Lemma spatial_patterns_prefix (x tw sw : tensor R) (nf C L k : nat) :
  shape x = [C; L] -> shape tw = [nf; 1%nat; k] -> shape sw = [nf; C; 1%nat] ->
  (0 < C)%nat -> (2 <= L)%nat -> (0 < k)%nat ->
  forall n, (n <= nf)%nat ->
  exists sp : tensor R,
    fold_left
      (fun acc feature => sp <- acc ;; pattern_step x tw sw C sp feature)
      (seq 0 n) (Ok (zeros [nf; C])) = Ok sp
    /\ shape sp = [nf; C]
    /\ forall f c, (f < n)%nat -> (c < C)%nat ->
         get sp [f; c] = pattern_entry x tw sw C L k (same_pad_left k) f c.
Proof.
  intros Hx Htw Hsw HC HL Hk n. induction n as [|n IH]; intros Hn.
  - exists (zeros [nf; C]). split; [reflexivity|]. split; [reflexivity|].
    intros f c Hf. lia.
  - destruct IH as (sp & Hfold & Hsp & Hrows); [lia|].
    destruct (pattern_step_ok x tw sw sp nf C L k n Hx Htw Hsw Hsp HC HL Hk)
      as (sp' & Hstep & Hsp' & Hrow & Hother); [lia|].
    exists sp'. rewrite seq_S, fold_left_app, Hfold. simpl.
    split; [exact Hstep|]. split; [exact Hsp'|].
    intros f c Hf Hc. destruct (Nat.eq_dec f n) as [->|Hne].
    + apply Hrow. exact Hc.
    + rewrite Hother by exact Hne. apply Hrows; [lia | exact Hc].
Qed.

(** C1 (amended).  For a signal of shape [(C, L)] with at least one
    channel and two samples, a temporal filter bank of shape [(F, 1, k)]
    with [k >= 1] and a spatial filter of shape [(F, C, 1)], the loop
    returns an [(F, C)] matrix whose entry [(f, c)] is the unbiased
    covariance, pooled over the whole time axis, of the signal filtered
    channel by channel with feature [f]'s kernel, multiplied by row [f] of
    the spatial filter.  The filtered signal of every iteration has the
    shape of the input; [(k - 1) / 2] zeros (rounded down) are put in front
    of the signal and the rest behind it, so an odd zero goes to the late
    side. *)
Theorem spatial_patterns_loop_spec (x tw sw : tensor R) (nf C L k : nat) :
  shape x = [C; L] -> shape tw = [nf; 1%nat; k] -> shape sw = [nf; C; 1%nat] ->
  (0 < C)%nat -> (2 <= L)%nat -> (0 < k)%nat ->
  exists sp : tensor R,
    spatial_patterns_loop x tw sw nf C = Ok sp
    /\ shape sp = [nf; C]
    /\ (forall f, (f < nf)%nat ->
          exists temporal_filter temporal_filter_ x_filtered : tensor R,
            slice_one tw f = Ok temporal_filter
            /\ repeat_11t_c1t temporal_filter C = Ok temporal_filter_
            /\ conv1d_same x temporal_filter_ C = Ok x_filtered
            /\ shape x_filtered = shape x
            /\ forall c t, (c < C)%nat ->
                 get x_filtered [c; t]
                 = get (filtered x tw C L k (same_pad_left k) f) [c; t])
    /\ (same_pad_left k <= k - 1 - same_pad_left k <= same_pad_left k + 1)%nat
    /\ forall f c, (f < nf)%nat -> (c < C)%nat ->
         get sp [f; c] = pattern_entry x tw sw C L k (same_pad_left k) f c.
Proof.
  intros Hx Htw Hsw HC HL Hk.
  destruct (spatial_patterns_prefix x tw sw nf C L k Hx Htw Hsw HC HL Hk nf)
    as (sp & Hfold & Hsp & Hrows); [lia|].
  exists sp. split; [exact Hfold|]. split; [exact Hsp|]. split.
  { intros f Hf. apply (loop_filter_ok x tw nf C L k f); try assumption. lia. }
  split.
  - unfold same_pad_left.
    pose proof (Nat.div_mod_eq (k - 1) 2) as E.
    pose proof (Nat.mod_upper_bound (k - 1) 2) as B. lia.
  - exact Hrows.
Qed.

Ltac eval_pattern :=
  unfold pattern_entry, covariance_entry, centered, row_mean, filtered, padded;
  simpl.

Lemma spatial_patterns_loop_spec_witness :
  exists sp : tensor R,
    spatial_patterns_loop demo_signal demo_temporal demo_spatial 2 2 = Ok sp
    /\ shape sp = [2; 2]%nat
    /\ get sp [0; 0]%nat = 14 / 3.
Proof.
  destruct (spatial_patterns_loop_spec demo_signal demo_temporal demo_spatial
              2 2 4 3) as (sp & Hsp & Hs & _ & _ & Hget);
    try reflexivity; try lia.
  exists sp. split; [exact Hsp|]. split; [exact Hs|].
  rewrite Hget by lia. eval_pattern. field.
Defined.

(** C1, as stated, fails for a kernel with an even number of taps: with
    the odd zero in front of the signal the pattern of the step signal
    would be 1/2, whereas the loop returns 0. *)
Lemma spatial_patterns_early_padding_fails :
  exists sp : tensor R,
    spatial_patterns_loop step_signal pair_kernel unit_spatial 1 1 = Ok sp
    /\ get sp [0; 0]%nat = 0
    /\ pattern_entry step_signal pair_kernel unit_spatial 1 2 2
         (early_pad_left 2) 0 0 = 1 / 2
    /\ get sp [0; 0]%nat
       <> pattern_entry step_signal pair_kernel unit_spatial 1 2 2
            (early_pad_left 2) 0 0.
Proof.
  destruct (spatial_patterns_prefix step_signal pair_kernel unit_spatial
              1 1 2 2) with (n := 1%nat) as (sp & Hsp & _ & Hget);
    try reflexivity; try lia.
  assert (E0 : get sp [0; 0]%nat = 0).
  { rewrite Hget by lia. eval_pattern. field. }
  assert (E1 : pattern_entry step_signal pair_kernel unit_spatial 1 2 2
                 (early_pad_left 2) 0 0 = 1 / 2).
  { eval_pattern. field. }
  exists sp. split; [exact Hsp|]. split; [exact E0|]. split; [exact E1|].
  rewrite E0, E1. lra.
Qed.

(** ** The derived spectra *)

Lemma bidx_rev_idem (s i : list nat) :
  bidx_rev s (bidx_rev s i) = bidx_rev s i.
Proof.
  revert i. induction s as [|d s IH]; intros [|k i]; simpl; try reflexivity.
  rewrite IH. destruct (Nat.eqb_spec d 1); reflexivity.
Qed.

(** Reading an operand through the broadcast index of the result reads the
    same entry as reading it directly. *)
Lemma bidx_rev_absorb_l (a b s i : list nat) :
  bshape_rev a b = Some s -> bidx_rev a (bidx_rev s i) = bidx_rev a i.
Proof.
  revert b s i. induction a as [|d a IH]; intros b s i H.
  - reflexivity.
  - destruct b as [|e b].
    + simpl in H. inversion H; subst. apply bidx_rev_idem.
    + simpl in H. destruct (bshape_rev a b) as [s'|] eqn:E; [|discriminate].
      destruct i as [|k i].
      * destruct s; reflexivity.
      * assert (Hs : exists ds, s = ds :: s' /\ (d <> 1%nat -> ds = d)).
        { destruct (Nat.eqb_spec d e).
          - inversion H; subst. eexists; split; [reflexivity | tauto].
          - destruct (Nat.eqb_spec d 1).
            + inversion H; subst. eexists; split; [reflexivity | tauto].
            + destruct (Nat.eqb_spec e 1); [|discriminate].
              inversion H; subst. eexists; split; [reflexivity | tauto]. }
        destruct Hs as (ds & -> & Hds). simpl.
        rewrite (IH b s' i E).
        destruct (Nat.eqb_spec d 1); [reflexivity|].
        rewrite (Hds n). destruct (Nat.eqb_spec d 1); [contradiction|].
        reflexivity.
Qed.

Lemma bidx_rev_absorb_r (a b s i : list nat) :
  bshape_rev a b = Some s -> bidx_rev b (bidx_rev s i) = bidx_rev b i.
Proof.
  revert b s i. induction a as [|d a IH]; intros b s i H.
  - simpl in H. inversion H; subst. apply bidx_rev_idem.
  - destruct b as [|e b].
    + reflexivity.
    + simpl in H. destruct (bshape_rev a b) as [s'|] eqn:E; [|discriminate].
      destruct i as [|k i].
      * destruct s; reflexivity.
      * assert (Hs : exists ds, s = ds :: s' /\ (e <> 1%nat -> ds = e)).
        { destruct (Nat.eqb_spec d e).
          - inversion H; subst. eexists; split; [reflexivity | tauto].
          - destruct (Nat.eqb_spec d 1).
            + inversion H; subst. eexists; split; [reflexivity | tauto].
            + destruct (Nat.eqb_spec e 1); [|discriminate].
              inversion H; subst. eexists; split; [reflexivity | tauto]. }
        destruct Hs as (ds & -> & Hds). simpl.
        rewrite (IH b s' i E).
        destruct (Nat.eqb_spec e 1); [reflexivity|].
        rewrite (Hds n). destruct (Nat.eqb_spec e 1); [contradiction|].
        reflexivity.
Qed.

(** The broadcast result absorbs its first operand. *)
Lemma bshape_rev_absorb (a b s : list nat) :
  bshape_rev a b = Some s -> bshape_rev s a = Some s.
Proof.
  revert b s. induction a as [|d a IH]; intros b s H.
  - destruct s; reflexivity.
  - destruct b as [|e b].
    + simpl in H. inversion H; subst. apply bshape_rev_refl.
    + simpl in H. destruct (bshape_rev a b) as [s'|] eqn:E; [|discriminate].
      specialize (IH b s' E).
      destruct (Nat.eqb_spec d e).
      * inversion H; subst. simpl. rewrite IH, Nat.eqb_refl. reflexivity.
      * destruct (Nat.eqb_spec d 1).
        -- inversion H; subst. simpl. rewrite IH.
           destruct (Nat.eqb_spec e 1); [reflexivity|].
           destruct (Nat.eqb_spec e 1); [contradiction | reflexivity].
        -- destruct (Nat.eqb_spec e 1); [|discriminate].
           inversion H; subst. simpl. rewrite IH, Nat.eqb_refl. reflexivity.
Qed.

Lemma bidx_absorb_l (a b s i : list nat) :
  broadcast_shapes a b = Some s -> bidx a (bidx s i) = bidx a i.
Proof.
  unfold broadcast_shapes, bidx. intros H.
  destruct (bshape_rev (rev a) (rev b)) as [s'|] eqn:E; [|discriminate].
  simpl in H. inversion H; subst.
  rewrite !rev_involutive. rewrite (bidx_rev_absorb_l _ _ _ _ E). reflexivity.
Qed.

Lemma bidx_absorb_r (a b s i : list nat) :
  broadcast_shapes a b = Some s -> bidx b (bidx s i) = bidx b i.
Proof.
  unfold broadcast_shapes, bidx. intros H.
  destruct (bshape_rev (rev a) (rev b)) as [s'|] eqn:E; [|discriminate].
  simpl in H. inversion H; subst.
  rewrite !rev_involutive. rewrite (bidx_rev_absorb_r _ _ _ _ E). reflexivity.
Qed.

Lemma broadcast_shapes_absorb (a b s : list nat) :
  broadcast_shapes a b = Some s -> broadcast_shapes s a = Some s.
Proof.
  unfold broadcast_shapes. intros H.
  destruct (bshape_rev (rev a) (rev b)) as [s'|] eqn:E; [|discriminate].
  simpl in H. inversion H; subst.
  rewrite rev_involutive, (bshape_rev_absorb _ _ _ E). reflexivity.
Qed.

(** C3 (amended).  Over the real numbers, [temporal_patterns_spectrum *
    temporal_filters_spectrum] and [output_spectrum] are the same
    computation: both fail when the two spectra do not broadcast, and
    otherwise they have the same shape and the same entries. *)
Theorem output_spectrum_identity (filters input : tensor R) :
  req (tps <- temporal_patterns_spectrum Rmult filters input ;;
       tzip Rmult tps filters)
      (output_spectrum Rmult filters input).
Proof.
  unfold temporal_patterns_spectrum, output_spectrum, pow2, tzip. simpl.
  destruct (broadcast_shapes (shape filters) (shape input)) as [s|] eqn:E;
    simpl.
  - rewrite (broadcast_shapes_absorb _ _ _ E). simpl.
    split; [reflexivity|]. intros idx. simpl.
    rewrite (bidx_absorb_l _ _ _ idx E), (bidx_absorb_r _ _ _ idx E). ring.
  - reflexivity.
Qed.

(** C3, as stated, fails in the notebook's float32: [(F * F) * I] and
    [(F * I) * F] round differently for [F = 1 + 2^-23] and [I = 3]. *)
Lemma output_spectrum_float32_differs :
  ~ req (tps <- temporal_patterns_spectrum Float32.mul
                  Float32.filters Float32.input ;;
         tzip Float32.mul tps Float32.filters)
        (output_spectrum Float32.mul Float32.filters Float32.input).
Proof.
  intros [_ H]. specialize (H [0; 0]%nat). vm_compute in H. discriminate.
Qed.

(** ** The filter spectrum *)

Lemma slice_stop_half (n : Z) :
  (0 < n)%Z -> slice_stop (Z.to_nat n) (n / 2) = Z.to_nat (n / 2).
Proof.
  intros Hn. unfold slice_stop.
  assert (0 <= n / 2 <= n)%Z.
  { split; [apply Z.div_pos; lia|].
    apply Z.div_le_upper_bound; lia. }
  destruct (Z.ltb_spec (n / 2) 0); [lia|].
  rewrite Z2Nat.id by lia. rewrite Z.min_l by lia. reflexivity.
Qed.

Lemma half_below (n k : Z) :
  (0 < n)%Z -> (0 <= k < n / 2)%Z -> (k <= (n - 1) / 2 /\ 2 * k < n)%Z.
Proof.
  intros Hn Hk.
  pose proof (Z.div_mod n 2 ltac:(lia)) as E1.
  pose proof (Z.mod_pos_bound n 2 ltac:(lia)) as B1.
  pose proof (Z.div_mod (n - 1) 2 ltac:(lia)) as E2.
  pose proof (Z.mod_pos_bound (n - 1) 2 ltac:(lia)) as B2.
  lia.
Qed.

(** Zero-padding: the taps beyond the kernel contribute nothing. *)
Lemma rsum_resized (x : tensor R) (K N : nat) (lead : list nat)
    (g : nat -> R) :
  (K <= N)%nat ->
  rsum N (fun j => resized x K lead j * g j)
  = rsum K (fun j => get x (lead ++ [j]) * g j).
Proof.
  intros H. replace N with (K + (N - K))%nat by lia.
  rewrite rsum_app.
  rewrite (rsum_zero (N - K)).
  - rewrite Rplus_0_r. apply rsum_ext. intros j Hj. unfold resized.
    destruct (Nat.ltb_spec j K); [reflexivity | lia].
  - intros t _. unfold resized.
    destruct (Nat.ltb_spec (K + t) K); [lia | ring].
Qed.

Lemma spectrum_unfold (signal : tensor R) (fs : R) (nfreq : Z)
    (ls : list nat) (K : nat) :
  shape signal = ls ++ [K] -> fs <> 0 -> (0 < nfreq)%Z ->
  exists fr am : tensor R,
    spectrum signal fs nfreq = Ok (fr, am)
    /\ shape fr = [Z.to_nat (nfreq / 2)]
    /\ shape am = ls ++ [Z.to_nat (nfreq / 2)]
    /\ (forall k, get fr [k] = get (fftfreq nfreq (1 / fs)) [k])
    /\ (forall lead k,
          get am (lead ++ [k])
          = Cabs
              (rsum (Z.to_nat nfreq)
                 (fun j => resized signal K lead j
                           * cos (2 * PI * INR (j * k) / INR (Z.to_nat nfreq))),
               - rsum (Z.to_nat nfreq)
                   (fun j => resized signal K lead j
                             * sin (2 * PI * INR (j * k) / INR (Z.to_nat nfreq))))).
Proof.
  intros Hs Hfs Hn. unfold spectrum, fft.
  rewrite Hs, rev_app_distr. simpl rev. cbv iota beta.
  change ([K] ++ rev ls) with (K :: rev ls). cbv iota beta.
  destruct (Z.ltb_spec nfreq 1); [lia|]. simpl bind.
  unfold py_inv. destruct (Req_dec_T fs 0); [contradiction|]. simpl bind.
  unfold shape_last. simpl shape. rewrite rev_involutive, rev_app_distr.
  simpl rev. simpl app. simpl bind.
  rewrite Nat.eqb_refl. simpl negb. cbv iota.
  unfold slice_last_to. simpl shape. rewrite rev_app_distr. simpl rev.
  simpl app. simpl bind. rewrite rev_involutive.
  rewrite slice_stop_half by exact Hn.
  eexists. eexists. split; [reflexivity|].
  split; [reflexivity|]. split; [reflexivity|]. split.
  - intros k. reflexivity.
  - intros lead k. simpl get. rewrite removelast_last, last_last. reflexivity.
Qed.

(** C8.  For a kernel bank whose last axis has [K <= nfreq] taps, a
    non-zero sample rate and [nfreq >= 1], [spectrum] returns the first
    [nfreq // 2] bins: bin [k] is reported at frequency [k * fs / nfreq],
    lies strictly below half the sample rate ([2 k < nfreq], so the
    Nyquist bin of an even [nfreq] is left out) and carries the modulus of
    bin [k] of the length-[nfreq] discrete Fourier transform of the
    zero-padded kernel. *)
Theorem spectrum_spec (signal : tensor R) (fs : R) (nfreq : Z)
    (ls : list nat) (K : nat) :
  shape signal = ls ++ [K] -> fs <> 0 -> (0 < nfreq)%Z ->
  (Z.of_nat K <= nfreq)%Z ->
  exists fr am : tensor R,
    spectrum signal fs nfreq = Ok (fr, am)
    /\ shape fr = [Z.to_nat (nfreq / 2)]
    /\ shape am = ls ++ [Z.to_nat (nfreq / 2)]
    /\ forall k, (k < Z.to_nat (nfreq / 2))%nat ->
         get fr [k] = INR k * fs / IZR nfreq
         /\ (2 * Z.of_nat k < nfreq)%Z
         /\ forall lead,
              get am (lead ++ [k])
              = dft_magnitude (fun j => get signal (lead ++ [j]))
                  K (Z.to_nat nfreq) k.
Proof.
  intros Hs Hfs Hn HK.
  destruct (spectrum_unfold signal fs nfreq ls K Hs Hfs Hn)
    as (fr & am & Hsp & Hsf & Hsa & Hgf & Hga).
  exists fr, am. repeat split; try assumption.
  - rewrite Hgf. simpl.
    assert (Hk : (0 <= Z.of_nat k < nfreq / 2)%Z) by lia.
    destruct (half_below nfreq (Z.of_nat k) Hn Hk) as [Hle _].
    destruct (Z.leb_spec (Z.of_nat k) ((nfreq - 1) / 2)); [|lia].
    rewrite <- INR_IZR_INZ. field. split; [|exact Hfs].
    apply not_0_IZR. lia.
  - assert (Hk : (0 <= Z.of_nat k < nfreq / 2)%Z) by lia.
    destruct (half_below nfreq (Z.of_nat k) Hn Hk) as [_ Hlt]. exact Hlt.
  - intros lead. rewrite Hga. unfold Cabs, dft_magnitude. simpl fst. simpl snd.
    rewrite !rsum_resized by lia. f_equal. ring.
Qed.

Lemma spectrum_spec_witness :
  exists fr am : tensor R,
    spectrum two_tap_bank 1000 4 = Ok (fr, am)
    /\ shape fr = [2%nat] /\ shape am = [1; 1; 2]%nat
    /\ get fr [1%nat] = 250
    /\ get am [0; 0; 1]%nat = 5.
Proof.
  destruct (spectrum_spec two_tap_bank 1000 4 [1; 1]%nat 2)
    as (fr & am & Hsp & Hsf & Hsa & Hk); try reflexivity; try lra; try lia.
  exists fr, am. split; [exact Hsp|]. split; [exact Hsf|]. split; [exact Hsa|].
  destruct (Hk 1%nat) as (Hf & _ & Ha).
  - change (Z.to_nat (4 / 2)) with 2%nat. lia.
  - split.
    + rewrite Hf. simpl. lra.
    + change [0; 0; 1]%nat with ([0; 0] ++ [1])%nat. rewrite Ha.
      unfold dft_magnitude.
      change (Z.to_nat 4) with 4%nat. simpl rsum. simpl get.
      replace (2 * PI * 0 / (1 + 1 + 1 + 1)) with 0 by field.
      replace (2 * PI * 1 / (1 + 1 + 1 + 1)) with (PI / 2) by field.
      rewrite cos_0, sin_0, cos_PI2, sin_PI2.
      replace ((0 + 3 * 1 + 4 * 0) * (0 + 3 * 1 + 4 * 0)
               + (0 + 3 * 0 + 4 * 1) * (0 + 3 * 0 + 4 * 1))
        with (5 * 5) by ring.
      apply sqrt_square. lra.
Defined.

(** ** Bin counts of the two spectral paths *)

Lemma broadcast_shapes_2d (F a b : nat) :
  broadcast_shapes [F; a] [F; b] = option_map (fun n => [F; n]) (bdim a b).
Proof.
  unfold broadcast_shapes, bdim. simpl. rewrite Nat.eqb_refl.
  destruct (a =? b)%nat; [reflexivity|].
  destruct (a =? 1)%nat; [reflexivity|].
  destruct (b =? 1)%nat; reflexivity.
Qed.

Lemma slice_stop_drop_last (m : Z) :
  (0 <= m)%Z -> slice_stop (Z.to_nat (m + 1)) (-1) = Z.to_nat m.
Proof.
  intros Hm. unfold slice_stop.
  change (-1 <? 0)%Z with true. cbv iota.
  rewrite Z2Nat.id by lia. f_equal. lia.
Qed.

Lemma numel_2d_pos (F L : nat) :
  (0 < F)%nat -> (0 < L)%nat -> (numel [F; L] =? 0)%nat = false.
Proof.
  intros HF HL. unfold numel. simpl. apply Nat.eqb_neq. nia.
Qed.

(** The result of the cell, by the bin counts of its two paths. *)
Lemma temporal_patterns_cell_result
    (welch_psd : tensor R -> Z -> list nat -> R)
    (x_unmixed temporal_filter : tensor R) (fs : R) (nyquist : Z)
    (F L k : nat) :
  shape x_unmixed = [F; L] -> shape temporal_filter = [F; 1%nat; k] ->
  fs <> 0 -> (0 < nyquist)%Z -> (0 < F)%nat -> (0 < L)%nat ->
  match bdim (Z.to_nat (nyquist / 2))
             (Z.to_nat (Z.min nyquist (Z.of_nat L) / 2)) with
  | Some n =>
      exists inp tfs tps out : tensor R,
        temporal_patterns_cell welch_psd x_unmixed temporal_filter
          fs nyquist = Ok (inp, tfs, tps, out)
        /\ shape inp = [F; Z.to_nat (Z.min nyquist (Z.of_nat L) / 2)]
        /\ shape tfs = [F; Z.to_nat (nyquist / 2)]
        /\ shape tps = [F; n]
        /\ shape out = [F; n]
  | None =>
      temporal_patterns_cell welch_psd x_unmixed temporal_filter
        fs nyquist = Raise RuntimeError
  end.
Proof.
  intros Hx Ht Hfs Hn HF HL.
  unfold temporal_patterns_cell, welch, welch_shape.
  rewrite Hx. simpl rev. cbv iota beta.
  rewrite (numel_2d_pos F L HF HL).
  destruct (Z.ltb_spec nyquist 1); [lia|]. simpl bind.
  rewrite slice_stop_drop_last
    by (apply Z.div_pos; lia).
  simpl bind.
  destruct (spectrum_unfold temporal_filter fs nyquist [F; 1%nat] k Ht Hfs Hn)
    as (fr & am & Hsp & _ & Hsa & _).
  rewrite Hsp. simpl bind. simpl snd.
  unfold rearrange_c1t_ct. rewrite Hsa. simpl app. cbv iota beta.
  simpl bind.
  unfold temporal_patterns_spectrum, output_spectrum, pow2, tzip.
  simpl shape. simpl app.
  rewrite broadcast_shapes_2d.
  destruct (bdim (Z.to_nat (nyquist / 2))
                 (Z.to_nat (Z.min nyquist (Z.of_nat L) / 2))) as [n|]; simpl.
  - do 4 eexists. split; [reflexivity|]. repeat split.
  - reflexivity.
Qed.

(** C7 (amended).  With [nyquist >= 1] and a non-empty unmixed signal of
    [L] samples, the filter spectrum has [nyquist // 2] bins and the input
    spectrum, its last bin dropped, has [min(nyquist, L) // 2]; for odd and
    even [nyquist] alike the two counts are equal as soon as the signal has
    at least [nyquist] samples.  No check compares the two counts: when
    they differ the cell fails (with the [RuntimeError] of the element-wise
    product) only if neither count is 1, and otherwise the product
    broadcasts. *)
Theorem temporal_patterns_bins (welch_psd : tensor R -> Z -> list nat -> R)
    (x_unmixed temporal_filter : tensor R) (fs : R) (nyquist : Z)
    (F L k : nat) :
  shape x_unmixed = [F; L] -> shape temporal_filter = [F; 1%nat; k] ->
  fs <> 0 -> (0 < nyquist)%Z -> (0 < F)%nat -> (0 < L)%nat ->
  let filter_bins := Z.to_nat (nyquist / 2) in
  let input_bins := Z.to_nat (Z.min nyquist (Z.of_nat L) / 2) in
  ((nyquist <= Z.of_nat L)%Z -> input_bins = filter_bins)
  /\ match bdim filter_bins input_bins with
     | Some n =>
         exists inp tfs tps out : tensor R,
           temporal_patterns_cell welch_psd x_unmixed temporal_filter
             fs nyquist = Ok (inp, tfs, tps, out)
           /\ shape inp = [F; input_bins]
           /\ shape tfs = [F; filter_bins]
           /\ shape tps = [F; n]
           /\ shape out = [F; n]
     | None =>
         temporal_patterns_cell welch_psd x_unmixed temporal_filter
           fs nyquist = Raise RuntimeError
     end.
Proof.
  intros Hx Ht Hfs Hn HF HL filter_bins input_bins. split.
  - intros Hle. unfold input_bins, filter_bins.
    rewrite Z.min_l by exact Hle. reflexivity.
  - unfold filter_bins, input_bins.
    apply (temporal_patterns_cell_result welch_psd x_unmixed temporal_filter
             fs nyquist F L k); assumption.
Qed.

Lemma temporal_patterns_bins_witness :
  exists inp tfs tps out : tensor R,
    temporal_patterns_cell flat_psd long_unmixed two_tap_bank 1000 5
    = Ok (inp, tfs, tps, out)
    /\ shape inp = [1; 2]%nat /\ shape tfs = [1; 2]%nat.
Proof.
  destruct (temporal_patterns_bins flat_psd long_unmixed two_tap_bank
              1000 5 1 5 2) as [_ H];
    try reflexivity; try lra; try lia.
  change (bdim (Z.to_nat (5 / 2)) (Z.to_nat (Z.min 5 (Z.of_nat 5) / 2)))
    with (Some 2%nat) in H.
  destruct H as (inp & tfs & tps & out & Hc & Hi & Hf & _).
  exists inp, tfs, tps, out. split; [exact Hc|]. split; assumption.
Defined.

(** C7, as stated, fails on a signal shorter than [nfreq]: with three
    samples and [nfreq = 4] the input spectrum has one bin, not
    [4 // 2 = 2], and the cell still returns, the product being
    broadcast. *)
Lemma temporal_patterns_mismatch_tolerated :
  exists inp tfs tps out : tensor R,
    temporal_patterns_cell flat_psd short_unmixed two_tap_bank 1000 4
    = Ok (inp, tfs, tps, out)
    /\ shape inp = [1; 1]%nat /\ shape tfs = [1; 2]%nat
    /\ shape tps = [1; 2]%nat.
Proof.
  pose proof (temporal_patterns_cell_result flat_psd short_unmixed
                two_tap_bank 1000 4 1 3 2 eq_refl eq_refl ltac:(lra)
                ltac:(lia) ltac:(lia) ltac:(lia)) as H.
  change (bdim (Z.to_nat (4 / 2)) (Z.to_nat (Z.min 4 (Z.of_nat 3) / 2)))
    with (Some 2%nat) in H.
  destruct H as (inp & tfs & tps & out & Hc & Hi & Hf & Hp & _).
  exists inp, tfs, tps, out. split; [exact Hc|]. repeat split; assumption.
Qed.

(** ** Gradient importance *)

Lemma rsum_delta (n t0 : nat) (d : R) :
  (t0 < n)%nat -> rsum n (fun t => if (t =? t0)%nat then d else 0) = d.
Proof.
  induction n as [|n IH]; intros H; [lia|]. simpl.
  destruct (Nat.eqb_spec n t0) as [->|Hne].
  - rewrite rsum_zero; [lra|]. intros t Ht.
    destruct (Nat.eqb_spec t t0); [lia | reflexivity].
  - rewrite IH by lia. lra.
Qed.

(** Adding [d] to the term [t0] of a sum adds [d] to the sum. *)
Lemma rsum_bump (n t0 : nat) (a : nat -> R) (d : R) :
  (t0 < n)%nat ->
  rsum n (fun t => a t + (if (t =? t0)%nat then d else 0)) = rsum n a + d.
Proof.
  intros H. rewrite rsum_plus, rsum_delta by exact H. reflexivity.
Qed.

(** The summed output is affine in the perturbation of one entry of [z],
    with the kernel of the entry's feature as slope. *)
Lemma output_along_affine (kernel z : tensor R) (B T F b0 t0 f0 : nat) (h : R) :
  shape z = [B; T; F] -> (b0 < B)%nat -> (t0 < T)%nat -> (f0 < F)%nat ->
  output_along kernel z b0 t0 f0 h
  = rsum B (fun b => rsum T (fun t =>
      rsum F (fun f => get z [b; t; f] * get kernel [0%nat; f; 0%nat])))
    + h * get kernel [0%nat; f0; 0%nat].
Proof.
  intros Hz Hb Ht Hf. unfold output_along, regressor_tf, perturb. simpl shape.
  rewrite Hz. unfold reduce_sum. simpl shape. cbv iota beta.
  rewrite <- (rsum_bump B b0 _ _ Hb).
  apply rsum_ext. intros b _.
  rewrite <- (rsum_bump T t0
                (fun t => rsum F (fun f => get z [b; t; f]
                                           * get kernel [0%nat; f; 0%nat]))
                (if (b =? b0)%nat then h * get kernel [0%nat; f0; 0%nat] else 0)
                Ht).
  apply rsum_ext. intros t _. simpl rsum. simpl get. rewrite Rplus_0_l.
  rewrite <- (rsum_bump F f0
                (fun f => get z [b; t; f] * get kernel [0%nat; f; 0%nat])
                (if (t =? t0)%nat
                 then if (b =? b0)%nat
                      then h * get kernel [0%nat; f0; 0%nat] else 0
                 else 0)
                Hf).
  apply rsum_ext. intros f _.
  destruct (Nat.eqb_spec b b0), (Nat.eqb_spec t t0), (Nat.eqb_spec f f0);
    simpl; subst; ring.
Qed.

(** [tape_gradient] is the gradient: every entry is the derivative of the
    summed output along the perturbation of the matching entry of [z]. *)
Lemma tape_gradient_is_derivative (kernel z : tensor R)
    (B T F b0 t0 f0 : nat) :
  shape z = [B; T; F] -> (b0 < B)%nat -> (t0 < T)%nat -> (f0 < F)%nat ->
  derivable_pt_lim (output_along kernel z b0 t0 f0) 0
    (get (tape_gradient kernel z) [b0; t0; f0]).
Proof.
  intros Hz Hb Ht Hf eps Heps.
  exists (mkposreal 1 Rlt_0_1). intros h Hh _.
  rewrite !(output_along_affine kernel z B T F b0 t0 f0) by assumption.
  simpl get.
  replace ((_ + (0 + h) * get kernel [0%nat; f0; 0%nat]
            - (_ + 0 * get kernel [0%nat; f0; 0%nat])) / h
           - get kernel [0%nat; f0; 0%nat]) with 0 by (field; exact Hh).
  rewrite Rabs_R0. exact Heps.
Qed.

(** The same for [SimpleNet]: its summed output is affine in one entry of
    [z], with the regressor weight of the entry's feature as slope. *)
Lemma output_along_pt_affine (weight z : tensor R) (B F T b0 f0 t0 : nat)
    (h : R) :
  shape z = [B; F; T] -> (b0 < B)%nat -> (f0 < F)%nat -> (t0 < T)%nat ->
  output_along_pt weight z b0 f0 t0 h
  = rsum B (fun b => rsum T (fun t =>
      rsum F (fun f => get weight [0%nat; f; 0%nat] * get z [b; f; t])))
    + h * get weight [0%nat; f0; 0%nat].
Proof.
  intros Hz Hb Hf Ht. unfold output_along_pt, regressor_pt, perturb.
  simpl shape. rewrite Hz. unfold reduce_sum. simpl shape. cbv iota beta.
  rewrite <- (rsum_bump B b0 _ _ Hb).
  apply rsum_ext. intros b _. simpl rsum at 1. rewrite Rplus_0_l.
  rewrite <- (rsum_bump T t0
                (fun t => rsum F (fun f => get weight [0%nat; f; 0%nat]
                                           * get z [b; f; t]))
                (if (b =? b0)%nat then h * get weight [0%nat; f0; 0%nat] else 0)
                Ht).
  apply rsum_ext. intros t _. simpl get.
  rewrite <- (rsum_bump F f0
                (fun f => get weight [0%nat; f; 0%nat] * get z [b; f; t])
                (if (t =? t0)%nat
                 then if (b =? b0)%nat
                      then h * get weight [0%nat; f0; 0%nat] else 0
                 else 0)
                Hf).
  apply rsum_ext. intros f _.
  destruct (Nat.eqb_spec b b0), (Nat.eqb_spec t t0), (Nat.eqb_spec f f0);
    simpl; subst; ring.
Qed.

Lemma simple_net_gradient_is_derivative (weight z : tensor R)
    (B F T b0 f0 t0 : nat) :
  shape z = [B; F; T] -> (b0 < B)%nat -> (f0 < F)%nat -> (t0 < T)%nat ->
  derivable_pt_lim (output_along_pt weight z b0 f0 t0) 0
    (get (simple_net_gradient weight z) [b0; f0; t0]).
Proof.
  intros Hz Hb Hf Ht eps Heps.
  exists (mkposreal 1 Rlt_0_1). intros h Hh _.
  rewrite !(output_along_pt_affine weight z B F T b0 f0 t0) by assumption.
  simpl get.
  replace ((_ + (0 + h) * get weight [0%nat; f0; 0%nat]
            - (_ + 0 * get weight [0%nat; f0; 0%nat])) / h
           - get weight [0%nat; f0; 0%nat]) with 0 by (field; exact Hh).
  rewrite Rabs_R0. exact Heps.
Qed.

Lemma gradients_tf_entries (kernel z : tensor R) (B T F : nat) :
  shape z = [B; T; F] ->
  exists g : tensor R,
    gradients_tf kernel z = Ok g
    /\ shape g = [F]
    /\ forall f,
         get g [f]
         = rsum B (fun b => rsum T (fun t =>
             Rabs (get (tape_gradient kernel z) [b; t; f]))).
Proof.
  intros Hz. unfold gradients_tf, np_sum_abs_axis01. simpl shape. rewrite Hz.
  eexists. split; [reflexivity|]. split; [reflexivity|].
  intros f. reflexivity.
Qed.

Lemma abs_gradient_sum_nonneg (g : tensor R) (f : nat) :
  0 <= abs_gradient_sum g f.
Proof.
  unfold abs_gradient_sum.
  destruct (shape g) as [|B [|F [|T [|? ?]]]]; try lra.
  apply rsum_nonneg. intros b _. apply rsum_nonneg. intros t _.
  apply Rabs_pos.
Qed.

Lemma total_abs_gradient_nonneg (gradient_yz : tensor R -> tensor R)
    (batches : list (tensor R)) (f : nat) :
  0 <= total_abs_gradient gradient_yz batches f.
Proof.
  induction batches as [|x l IH]; simpl.
  - lra.
  - pose proof (abs_gradient_sum_nonneg (gradient_yz x) f). lra.
Qed.

(** The running accumulator holds the sum over the batches seen so far. *)
Lemma accumulate_from (gradient_yz : tensor R -> tensor R) (nfeatures : nat)
    (batches : list (tensor R)) (acc : tensor R) :
  shape acc = [nfeatures] ->
  let final :=
    fold_left
      (fun acc x =>
         mkTensor [nfeatures]
           (fun i =>
              match i with
              | [f] => get acc [f] + abs_gradient_sum (gradient_yz x) f
              | _ => 0
              end))
      batches acc in
  shape final = [nfeatures]
  /\ forall f, get final [f]
               = get acc [f] + total_abs_gradient gradient_yz batches f.
Proof.
  revert acc. induction batches as [|x l IH]; intros acc Hacc; simpl.
  - split; [exact Hacc | intros f; lra].
  - match goal with
    | |- context [fold_left ?step l ?a] =>
        destruct (IH a eq_refl) as [Hs Hg]
    end.
    split; [exact Hs|]. intros f. rewrite Hg. simpl. lra.
Qed.

Lemma insert_desc_perm (score : nat -> R) (i : nat) (l : list nat) :
  Permutation (i :: l) (insert_desc score i l).
Proof.
  induction l as [|j l IH]; simpl.
  - apply Permutation_refl.
  - destruct (Rle_dec (score j) (score i)).
    + apply Permutation_refl.
    + eapply perm_trans; [apply perm_swap|].
      apply perm_skip. exact IH.
Qed.

Lemma argsort_desc_perm (score : nat -> R) (n : nat) :
  Permutation (argsort_desc score n) (seq 0 n).
Proof.
  unfold argsort_desc. induction (seq 0 n) as [|i l IH]; simpl.
  - apply Permutation_refl.
  - eapply perm_trans; [apply Permutation_sym, insert_desc_perm|].
    apply perm_skip. exact IH.
Qed.

Lemma insert_desc_sorted (score : nat -> R) (i : nat) (l : list nat) :
  StronglySorted (fun a b => score b <= score a) l ->
  StronglySorted (fun a b => score b <= score a) (insert_desc score i l).
Proof.
  induction 1 as [|j l Hs IH Hall]; simpl.
  - repeat constructor.
  - destruct (Rle_dec (score j) (score i)) as [Hle|Hgt].
    + constructor.
      * constructor; assumption.
      * constructor; [exact Hle|].
        eapply Forall_impl; [|exact Hall]. simpl. intros a Ha. lra.
    + constructor; [exact IH|].
      eapply Permutation_Forall; [apply insert_desc_perm|].
      constructor; [lra | exact Hall].
Qed.

Lemma argsort_desc_sorted (score : nat -> R) (n : nat) :
  StronglySorted (fun a b => score b <= score a) (argsort_desc score n).
Proof.
  unfold argsort_desc. induction (seq 0 n) as [|i l IH]; simpl.
  - constructor.
  - apply insert_desc_sorted. exact IH.
Qed.

(** C4.  The scorer returns, for every feature, the sum over all batches,
    batch elements and time steps of the absolute gradient of the summed
    output with respect to [z]; every score is non-negative; and the
    returned ranking lists every feature index once, by decreasing score.
    On the TensorFlow cross-check of the notebook, [gradients_tf] is the
    same aggregate of [tape_gradient]; [tape_gradient], and for the
    [SimpleNet] handed to the scorer [simple_net_gradient], are the
    gradients of the summed output of the regressor with respect to
    [z]. *)
Theorem gradient_importance_spec (gradient_yz : tensor R -> tensor R)
    (nfeatures : nat) (batches : list (tensor R)) :
  (shape (snd (create_importance_indices gradient_yz nfeatures batches))
   = [nfeatures]
   /\ (forall f,
         get (snd (create_importance_indices gradient_yz nfeatures batches)) [f]
         = total_abs_gradient gradient_yz batches f)
   /\ (forall f,
         0 <= get (snd (create_importance_indices gradient_yz nfeatures batches))
                [f])
   /\ Permutation
        (fst (create_importance_indices gradient_yz nfeatures batches))
        (seq 0 nfeatures)
   /\ StronglySorted
        (fun i j =>
           get (snd (create_importance_indices gradient_yz nfeatures batches)) [j]
           <= get (snd (create_importance_indices gradient_yz nfeatures batches))
                [i])
        (fst (create_importance_indices gradient_yz nfeatures batches)))
  /\ (forall (kernel z : tensor R) (B T F : nat),
        shape z = [B; T; F] ->
        exists g : tensor R,
          gradients_tf kernel z = Ok g
          /\ shape g = [F]
          /\ forall f, (f < F)%nat ->
               get g [f]
               = rsum B (fun b => rsum T (fun t =>
                   Rabs (get (tape_gradient kernel z) [b; t; f])))
               /\ 0 <= get g [f]
               /\ forall b t, (b < B)%nat -> (t < T)%nat ->
                    derivable_pt_lim (output_along kernel z b t f) 0
                      (get (tape_gradient kernel z) [b; t; f]))
  /\ forall (weight z : tensor R) (B F T b f t : nat),
       shape z = [B; F; T] -> (b < B)%nat -> (f < F)%nat -> (t < T)%nat ->
       derivable_pt_lim (output_along_pt weight z b f t) 0
         (get (simple_net_gradient weight z) [b; f; t]).
Proof.
  split; [|split].
  - unfold create_importance_indices. simpl fst. simpl snd.
    destruct (accumulate_from gradient_yz nfeatures batches (zeros [nfeatures])
                eq_refl) as [Hs Hg].
    fold (accumulate_gradients gradient_yz nfeatures batches) in Hs, Hg.
    assert (Hval : forall f,
               get (accumulate_gradients gradient_yz nfeatures batches) [f]
               = total_abs_gradient gradient_yz batches f).
    { intros f. rewrite Hg. simpl. lra. }
    split; [exact Hs|]. split; [exact Hval|]. split.
    + intros f. rewrite Hval. apply total_abs_gradient_nonneg.
    + split; [apply argsort_desc_perm|].
      apply (argsort_desc_sorted
               (fun f => get (accumulate_gradients gradient_yz nfeatures batches)
                           [f])).
  - intros kernel z B T F Hz.
    destruct (gradients_tf_entries kernel z B T F Hz) as (g & Hg & Hs & He).
    exists g. split; [exact Hg|]. split; [exact Hs|].
    intros f Hf. split; [apply He|]. split.
    + rewrite He. apply rsum_nonneg. intros b _. apply rsum_nonneg.
      intros t _. apply Rabs_pos.
    + intros b t Hb Ht.
      apply (tape_gradient_is_derivative kernel z B T F); assumption.
  - intros weight z B F T b f t Hz Hb Hf Ht.
    apply (simple_net_gradient_is_derivative weight z B F T); assumption.
Qed.

Lemma gradient_importance_spec_witness :
  (let result :=
     create_importance_indices (simple_net_gradient demo_weight_pt) 3
       [demo_z_pt; demo_z_pt] in
   get (snd result) [1%nat] = 40
   /\ Permutation (fst result) [0; 1; 2]%nat)
  /\ (exists g : tensor R,
        gradients_tf demo_kernel_tf demo_z_tf = Ok g
        /\ get g [1%nat] = 20)
  /\ derivable_pt_lim (output_along_pt demo_weight_pt demo_z_pt 1 1 0) 0 (-5).
Proof.
  destruct (gradient_importance_spec (simple_net_gradient demo_weight_pt) 3
              [demo_z_pt; demo_z_pt]) as ((_ & Hv & _ & Hp & _) & Htf & Hpt).
  split; [|split].
  - split; [|exact Hp].
    rewrite Hv. unfold total_abs_gradient, abs_gradient_sum. simpl.
    rewrite Rabs_left by lra. lra.
  - destruct (Htf demo_kernel_tf demo_z_tf 2%nat 2%nat 3%nat eq_refl)
      as (g & Hg & _ & He).
    exists g. split; [exact Hg|].
    destruct (He 1%nat) as [E _]; [lia|].
    rewrite E. simpl. rewrite Rabs_left by lra. lra.
  - apply (Hpt demo_weight_pt demo_z_pt 2%nat 3%nat 2%nat 1%nat 1%nat 0%nat);
      try reflexivity; lia.
Defined.

(** ** Chunked accumulation of the covariance *)

Lemma IZR_of_nat_succ (n : nat) :
  IZR (Z.of_nat (S n)) = IZR (Z.of_nat n) + 1.
Proof. rewrite Nat2Z.inj_succ, succ_IZR. reflexivity. Qed.


Lemma IZR_of_nat_pos (n : nat) : (0 < n)%nat -> 0 < IZR (Z.of_nat n).
Proof. intros H. apply IZR_lt. lia. Qed.








(** * Further properties of the notebook code *)

(** ** The covariance estimator: algebra *)

Lemma rsum_mult_l (n : nat) (a : R) (f : nat -> R) :
  rsum n (fun t => a * f t) = a * rsum n f.
Proof. induction n as [|n IH]; simpl; [ring | rewrite IH; ring]. Qed.

Lemma rsum_const (n : nat) (k : R) :
  rsum n (fun _ => k) = IZR (Z.of_nat n) * k.
Proof.
  induction n as [|n IH].
  - simpl. ring.
  - rewrite IZR_of_nat_succ. simpl. rewrite IH. ring.
Qed.

Lemma rsum_swap (n m : nat) (f : nat -> nat -> R) :
  rsum n (fun i => rsum m (fun j => f i j))
  = rsum m (fun j => rsum n (fun i => f i j)).
Proof.
  induction n as [|n IH]; simpl.
  - symmetry. apply rsum_zero. reflexivity.
  - rewrite IH, <- rsum_plus. reflexivity.
Qed.

Lemma rsum_square (n : nat) (g : nat -> R) :
  rsum n (fun i => rsum n (fun j => g i * g j)) = rsum n g * rsum n g.
Proof.
  rewrite (rsum_ext n _ (fun i => g i * rsum n g)).
  - rewrite (rsum_ext n _ (fun i => rsum n g * g i)) by (intros; ring).
    rewrite rsum_mult_l. reflexivity.
  - intros i _. apply rsum_mult_l.
Qed.

Lemma centered_scale (x : tensor R) (a : R) (T : nat) (lead : list nat)
    (c t : nat) :
  centered (scale a x) None T lead c t = a * centered x None T lead c t.
Proof.
  unfold centered, row_mean. simpl get. rewrite rsum_mult_l.
  unfold Rdiv. ring.
Qed.

Lemma covariance_entry_scale (x : tensor R) (a : R) (unbiased : bool)
    (T : nat) (lead : list nat) (c C' : nat) :
  covariance_entry (scale a x) unbiased None T lead c C'
  = a * a * covariance_entry x unbiased None T lead c C'.
Proof.
  unfold covariance_entry.
  rewrite (rsum_ext T _ (fun t => (a * a) * (centered x None T lead c t
                                          * centered x None T lead C' t))).
  - rewrite rsum_mult_l. ring.
  - intros t _. rewrite !centered_scale. ring.
Qed.

(** X1.  Scaling the signal by [a] scales every covariance entry by
    [a * a]. *)
Theorem covariance_scaling (x : tensor R) (a : R) (unbiased : bool)
    (ls : list nat) (C T : nat) :
  shape x = ls ++ [C; T] ->
  (Z.of_nat T - Z.b2z unbiased <> 0)%Z ->
  exists r ra : tensor R,
    covariance x unbiased None = Ok r
    /\ covariance (scale a x) unbiased None = Ok ra
    /\ shape ra = shape r
    /\ forall lead c C',
         valid_index lead ls -> (c < C)%nat -> (C' < C)%nat ->
         get ra (lead ++ [c; C']) = a * a * get r (lead ++ [c; C']).
Proof.
  intros Hs Hn.
  destruct (covariance_entries x unbiased None ls C T Hs Hn I)
    as (r & Hr & Hsr & Hg).
  destruct (covariance_entries (scale a x) unbiased None ls C T Hs Hn I)
    as (ra & Hra & Hsra & Hga).
  exists r, ra. split; [exact Hr|]. split; [exact Hra|].
  split; [rewrite Hsr; exact Hsra|].
  intros lead c C' Hl Hc HC'.
  rewrite Hg, Hga by assumption. apply covariance_entry_scale.
Qed.

Lemma covariance_scaling_witness :
  exists r ra : tensor R,
    covariance sample_batch true None = Ok r
    /\ covariance (scale 3 sample_batch) true None = Ok ra
    /\ get ra [0; 0; 1]%nat = 9 * get r [0; 0; 1]%nat.
Proof.
  destruct (covariance_scaling sample_batch 3 true [2%nat] 2 3 eq_refl
              ltac:(simpl; lia)) as (r & ra & Hr & Hra & _ & Hg).
  exists r, ra. split; [exact Hr|]. split; [exact Hra|].
  change (get ra ([0%nat] ++ [0%nat; 1%nat])
          = 9 * get r ([0%nat] ++ [0%nat; 1%nat])).
  rewrite Hg by (repeat constructor). ring.
Defined.

Lemma centered_shift (x x' : tensor R) (T : nat) (lead : list nat)
    (c : nat) (k : R) :
  (forall t, (t < T)%nat ->
     get x' (lead ++ [c; t]) = get x (lead ++ [c; t]) + k) ->
  forall t, (t < T)%nat ->
    centered x' None T lead c t = centered x None T lead c t.
Proof.
  intros H t Ht. unfold centered, row_mean.
  rewrite (rsum_ext T (fun t0 => get x' (lead ++ [c; t0]))
                      (fun t0 => get x (lead ++ [c; t0]) + k)) by exact H.
  rewrite rsum_plus, rsum_const, (H t Ht).
  assert (0 < IZR (Z.of_nat T)) by (apply IZR_of_nat_pos; lia).
  field. lra.
Qed.

(** X2.  Adding an offset that is constant over time (one value per
    leading element and channel, broadcast along the time axis) leaves the
    covariance unchanged. *)
Theorem covariance_shift_invariant (x offset : tensor R) (unbiased : bool)
    (ls : list nat) (C T : nat) :
  shape x = ls ++ [C; T] -> shape offset = ls ++ [C; 1%nat] ->
  (Z.of_nat T - Z.b2z unbiased <> 0)%Z ->
  exists x' r r' : tensor R,
    tadd x offset = Ok x'
    /\ covariance x unbiased None = Ok r
    /\ covariance x' unbiased None = Ok r'
    /\ shape r' = shape r
    /\ forall lead c C',
         valid_index lead ls -> (c < C)%nat -> (C' < C)%nat ->
         get r' (lead ++ [c; C']) = get r (lead ++ [c; C']).
Proof.
  intros Hs Ho Hn.
  assert (Hb : broadcast_shapes (shape x) (shape offset) = Some (shape x)).
  { rewrite Hs, Ho, !app_two. apply broadcast_shapes_keepdims. }
  unfold tadd, tzip. rewrite Hb.
  eexists. 
  destruct (covariance_entries x unbiased None ls C T Hs Hn I)
    as (r & Hr & Hsr & Hg).
  match goal with
  | |- exists r0 r1, Ok ?t = Ok _ /\ _ =>
      destruct (covariance_entries t unbiased None ls C T Hs Hn I)
        as (r' & Hr' & Hsr' & Hg')
  end.
  exists r, r'. split; [reflexivity|]. split; [exact Hr|].
  split; [exact Hr'|]. split; [rewrite Hsr; exact Hsr'|].
  intros lead c C' Hl Hc HC'.
  rewrite Hg, Hg' by assumption.
  assert (Hpt : forall k t, (k < C)%nat -> (t < T)%nat ->
            get (mkTensor (shape x)
                   (fun i => get x (bidx (shape x) i)
                             + get offset (bidx (shape offset) i)))
                (lead ++ [k; t])
            = get x (lead ++ [k; t]) + get offset (lead ++ [k; 0%nat])).
  { intros k t Hk Ht. simpl get.
    rewrite bidx_valid
      by (rewrite Hs; apply valid_index_app;
          [exact Hl | repeat constructor; assumption]).
    rewrite Ho, !app_two, bidx_keepdims
      by (apply valid_index_app; [exact Hl | repeat constructor; exact Hk]).
    reflexivity. }
  unfold covariance_entry. f_equal. apply rsum_ext. intros t Ht.
  rewrite (centered_shift x _ T lead c (get offset (lead ++ [c; 0%nat])))
    by (try exact Ht; intros t0 Ht0; apply Hpt; assumption).
  rewrite (centered_shift x _ T lead C' (get offset (lead ++ [C'; 0%nat])))
    by (try exact Ht; intros t0 Ht0; apply Hpt; assumption).
  reflexivity.
Qed.

Lemma covariance_shift_invariant_witness :
  exists x' r r' : tensor R,
    tadd sample_batch demo_offset = Ok x'
    /\ covariance sample_batch true None = Ok r
    /\ covariance x' true None = Ok r'
    /\ get r' [0; 0; 1]%nat = get r [0; 0; 1]%nat.
Proof.
  destruct (covariance_shift_invariant sample_batch demo_offset true
              [2%nat] 2 3 eq_refl eq_refl ltac:(simpl; lia))
    as (x' & r & r' & Hx' & Hr & Hr' & _ & Hg).
  exists x', r, r'. split; [exact Hx'|]. split; [exact Hr|].
  split; [exact Hr'|].
  apply (Hg [0%nat] 0%nat 1%nat); repeat constructor.
Defined.

(** X3.  A returned covariance is positive semidefinite in every leading
    element whenever the normaliser [T - unbiased] is positive: the
    quadratic form of any weight vector is non-negative, whatever mean was
    supplied. *)
Theorem covariance_positive_semidefinite (x : tensor R) (unbiased : bool)
    (mean : option (tensor R)) (ls : list nat) (C T : nat) :
  shape x = ls ++ [C; T] ->
  (0 < Z.of_nat T - Z.b2z unbiased)%Z ->
  mean_fits x mean ->
  exists r : tensor R,
    covariance x unbiased mean = Ok r
    /\ forall (v : nat -> R) (lead : list nat),
         valid_index lead ls ->
         0 <= rsum C (fun c => rsum C (fun C' =>
                v c * get r (lead ++ [c; C']) * v C')).
Proof.
  intros Hs Hn Hm.
  destruct (covariance_entries x unbiased mean ls C T Hs ltac:(lia) Hm)
    as (r & Hr & _ & Hg).
  exists r. split; [exact Hr|]. intros v lead Hl.
  set (k := 1 / IZR (Z.of_nat T - Z.b2z unbiased)).
  set (g := fun c t => v c * centered x mean T lead c t).
  assert (Hk : 0 < k).
  { unfold k. apply Rdiv_lt_0_compat; [lra | apply IZR_lt; lia]. }
  rewrite (rsum_ext C _
             (fun c => k * rsum T (fun t =>
                             rsum C (fun C' => g c t * g C' t)))).
  - rewrite rsum_mult_l, rsum_swap.
    apply Rmult_le_pos; [lra|].
    apply rsum_nonneg. intros t _.
    rewrite rsum_square. apply Rle_0_sqr.
  - intros c Hc.
    rewrite (rsum_swap T C).
    rewrite <- rsum_mult_l. apply rsum_ext. intros C' HC'.
    rewrite (Hg lead c C' Hl Hc HC'). unfold covariance_entry. fold k.
    rewrite (rsum_ext T (fun t => g c t * g C' t)
               (fun t => (v c * v C')
                         * (centered x mean T lead c t
                            * centered x mean T lead C' t)))
      by (intros t _; unfold g; ring).
    rewrite rsum_mult_l. ring.
Qed.

Lemma covariance_positive_semidefinite_witness :
  exists r : tensor R,
    covariance sample_batch true None = Ok r
    /\ 0 <= rsum 2 (fun c => rsum 2 (fun C' =>
              (if (c =? 0)%nat then 1 else -2)
              * get r ([0%nat] ++ [c; C'])
              * (if (C' =? 0)%nat then 1 else -2))).
Proof.
  destruct (covariance_positive_semidefinite sample_batch true None
              [2%nat] 2 3 eq_refl ltac:(simpl; lia) I) as (r & Hr & Hq).
  exists r. split; [exact Hr|].
  apply (Hq (fun c => if (c =? 0)%nat then 1 else -2) [0%nat]).
  repeat constructor.
Defined.

(** X4.  For at least two samples the unbiased and the biased estimate
    differ by Bessel's factor only: [(T - 1)] times the unbiased entry is
    [T] times the biased entry. *)
Theorem covariance_bessel (x : tensor R) (mean : option (tensor R))
    (ls : list nat) (C T : nat) :
  shape x = ls ++ [C; T] -> (2 <= T)%nat -> mean_fits x mean ->
  exists ru rb : tensor R,
    covariance x true mean = Ok ru
    /\ covariance x false mean = Ok rb
    /\ forall lead c C',
         valid_index lead ls -> (c < C)%nat -> (C' < C)%nat ->
         IZR (Z.of_nat T - 1) * get ru (lead ++ [c; C'])
         = IZR (Z.of_nat T) * get rb (lead ++ [c; C']).
Proof.
  intros Hs HT Hm.
  destruct (covariance_entries x true mean ls C T Hs ltac:(simpl; lia) Hm)
    as (ru & Hru & _ & Hgu).
  destruct (covariance_entries x false mean ls C T Hs ltac:(simpl; lia) Hm)
    as (rb & Hrb & _ & Hgb).
  exists ru, rb. split; [exact Hru|]. split; [exact Hrb|].
  intros lead c C' Hl Hc HC'.
  rewrite Hgu, Hgb by assumption. unfold covariance_entry.
  simpl Z.b2z. rewrite Z.sub_0_r.
  assert (0 < IZR (Z.of_nat T - 1)) by (apply IZR_lt; lia).
  assert (0 < IZR (Z.of_nat T)) by (apply IZR_lt; lia).
  field. split; lra.
Qed.

Lemma covariance_bessel_witness :
  exists ru rb : tensor R,
    covariance sample_batch true None = Ok ru
    /\ covariance sample_batch false None = Ok rb
    /\ 2 * get ru [0; 0; 1]%nat = 3 * get rb [0; 0; 1]%nat.
Proof.
  destruct (covariance_bessel sample_batch None [2%nat] 2 3 eq_refl
              ltac:(lia) I) as (ru & rb & Hru & Hrb & Hg).
  exists ru, rb. split; [exact Hru|]. split; [exact Hrb|].
  apply (Hg [0%nat] 0%nat 1%nat); repeat constructor.
Defined.

(** X5.  A channel that is constant over time has zero covariance with
    every channel, itself included. *)
Theorem covariance_constant_channel (x : tensor R) (unbiased : bool)
    (ls lead : list nat) (C T c : nat) (k : R) :
  shape x = ls ++ [C; T] ->
  (Z.of_nat T - Z.b2z unbiased <> 0)%Z ->
  valid_index lead ls -> (c < C)%nat ->
  (forall t, (t < T)%nat -> get x (lead ++ [c; t]) = k) ->
  exists r : tensor R,
    covariance x unbiased None = Ok r
    /\ forall C', (C' < C)%nat ->
         get r (lead ++ [c; C']) = 0 /\ get r (lead ++ [C'; c]) = 0.
Proof.
  intros Hs Hn Hl Hc Hk.
  destruct (covariance_entries x unbiased None ls C T Hs Hn I)
    as (r & Hr & _ & Hg).
  exists r. split; [exact Hr|].
  assert (Hz : forall t, (t < T)%nat -> centered x None T lead c t = 0).
  { intros t Ht. unfold centered, row_mean.
    rewrite (rsum_ext T _ (fun _ => k)) by exact Hk.
    rewrite rsum_const, (Hk t Ht).
    assert (0 < IZR (Z.of_nat T)) by (apply IZR_of_nat_pos; lia).
    field. lra. }
  intros C' HC'. rewrite !Hg by assumption. unfold covariance_entry.
  split.
  - rewrite (rsum_zero T); [ring|]. intros t Ht. rewrite (Hz t Ht). ring.
  - rewrite (rsum_zero T); [ring|]. intros t Ht. rewrite (Hz t Ht). ring.
Qed.

Lemma covariance_constant_channel_witness :
  exists r : tensor R,
    covariance flat_channel_batch true None = Ok r
    /\ get r [0; 1; 0]%nat = 0 /\ get r [0; 1; 1]%nat = 0.
Proof.
  destruct (covariance_constant_channel flat_channel_batch true
              [1%nat] [0%nat] 2 3 1 7 eq_refl ltac:(simpl; lia))
    as (r & Hr & Hz).
  - repeat constructor.
  - lia.
  - intros [|[|[|t]]] Ht; try reflexivity. lia.
  - exists r. split; [exact Hr|]. split.
    + apply (Hz 0%nat). lia.
    + apply (Hz 1%nat). lia.
Defined.

(** ** The covariance estimator: failures *)

(** X6.  Without a supplied mean the estimator raises [ZeroDivisionError]
    exactly when the normaliser vanishes, that is for one sample with
    [unbiased=True] and for an empty time axis with [unbiased=False],
    whatever the number of axes. *)
Theorem covariance_zero_division (x : tensor R) (unbiased : bool)
    (ls : list nat) (T : nat) :
  shape x = ls ++ [T] ->
  (covariance x unbiased None = Raise ZeroDivisionError
   <-> Z.of_nat T = Z.b2z unbiased).
Proof.
  intros Hs. unfold covariance, tzip.
  rewrite (shape_mean_last x ls T Hs), Hs, broadcast_shapes_keepdims.
  simpl bind. unfold shape_last. simpl shape.
  rewrite rev_app_distr. simpl bind. unfold py_div.
  destruct (Z.eqb_spec (Z.of_nat T - Z.b2z unbiased) 0) as [E|E].
  - simpl. split; [lia | reflexivity].
  - simpl bind. split; [|lia]. intros H.
    unfold einsum_ct_Ct_cC in H. simpl shape in H.
    destruct (split_last2 (ls ++ [T])) as [[[a b] d]|]; simpl in H;
      discriminate.
Qed.

Lemma covariance_zero_division_witness :
  covariance empty_time false None = Raise ZeroDivisionError
  /\ covariance single_sample true None = Raise ZeroDivisionError
  /\ covariance single_sample false None <> Raise ZeroDivisionError.
Proof.
  split; [|split].
  - apply (covariance_zero_division empty_time false [2%nat] 0 eq_refl).
    reflexivity.
  - apply (covariance_zero_division single_sample true [2%nat] 1 eq_refl).
    reflexivity.
  - intros H.
    apply (covariance_zero_division single_sample false [2%nat] 1 eq_refl)
      in H.
    discriminate.
Defined.

(** X7.  A signal without a channel axis is rejected: a 1-d tensor makes
    [einsum] raise [RuntimeError] (once the division has succeeded), and a
    0-d tensor has no [shape[-1]], which raises [IndexError]. *)
Theorem covariance_needs_channel_axis (x : tensor R) (unbiased : bool) :
  (forall T, shape x = [T] ->
     (Z.of_nat T - Z.b2z unbiased <> 0)%Z ->
     covariance x unbiased None = Raise RuntimeError)
  /\ (shape x = [] -> covariance x unbiased None = Raise IndexError).
Proof.
  split.
  - intros T Hs Hn. unfold covariance, tzip.
    rewrite (shape_mean_last x [] T Hs), Hs.
    change ([] ++ [1%nat]) with [1%nat].
    pose proof (broadcast_shapes_keepdims [] T) as Hb. simpl app in Hb.
    rewrite Hb.
    simpl bind. unfold shape_last, py_div. simpl.
    destruct (Z.eqb_spec (Z.of_nat T - Z.b2z unbiased) 0) as [E|_];
      [contradiction | reflexivity].
  - intros Hs. unfold covariance, tzip, mean_last. rewrite Hs.
    simpl. unfold shape_last. simpl. rewrite Hs. reflexivity.
Qed.

Lemma covariance_needs_channel_axis_witness :
  covariance bare_series true None = Raise RuntimeError
  /\ covariance scalar_tensor true None = Raise IndexError.
Proof.
  destruct (covariance_needs_channel_axis bare_series true) as [H1 _].
  destruct (covariance_needs_channel_axis scalar_tensor true) as [_ H2].
  split.
  - apply (H1 3%nat eq_refl). simpl. lia.
  - apply H2. reflexivity.
Defined.

(** ** Layouts *)

(** Summing over the flattened [(b t)] axis is summing over trials and
    time steps. *)
Lemma rsum_flatten (B T : nat) (f : nat -> nat -> R) :
  rsum (B * T) (fun p => f (p / T)%nat (p mod T)%nat)
  = rsum B (fun b => rsum T (fun t => f b t)).
Proof.
  induction B as [|B IH].
  - reflexivity.
  - replace (S B * T)%nat with (B * T + T)%nat by lia.
    rewrite rsum_app, IH. simpl. f_equal.
    apply rsum_ext. intros t Ht.
    assert (HT : T <> 0%nat) by lia.
    replace (B * T + t)%nat with (t + B * T)%nat by lia.
    rewrite Nat.div_add by exact HT.
    rewrite Nat.Div0.mod_add.
    rewrite Nat.div_small, Nat.mod_small by exact Ht.
    reflexivity.
Qed.

(** X8.  The covariance of the flattened signal [x] of cell 3 is the
    covariance pooled over all trials and time steps of [data]: one mean
    per channel over the whole recording, and one [(C, C)] matrix. *)
Theorem covariance_of_flattened_is_pooled (data : tensor R) (unbiased : bool)
    (B C T : nat) :
  shape data = [B; C; T] ->
  (Z.of_nat (B * T) - Z.b2z unbiased <> 0)%Z ->
  exists x r : tensor R,
    rearrange_bct_c_bt data = Ok x
    /\ shape x = [C; (B * T)%nat]
    /\ covariance x unbiased None = Ok r
    /\ shape r = [C; C]
    /\ forall c C', (c < C)%nat -> (C' < C)%nat ->
         get r [c; C'] = pooled_covariance_entry data unbiased B T c C'.
Proof.
  intros Hs Hn. unfold rearrange_bct_c_bt. rewrite Hs.
  eexists.
  match goal with
  | |- exists r, Ok ?x = Ok _ /\ _ =>
      destruct (covariance_entries x unbiased None [] C (B * T) eq_refl Hn I)
        as (r & Hr & Hsr & Hg)
  end.
  exists r. split; [reflexivity|]. split; [reflexivity|].
  split; [exact Hr|]. split; [exact Hsr|].
  intros c C' Hc HC'. change [c; C'] with ([] ++ [c; C']).
  rewrite Hg by (try constructor; assumption).
  unfold covariance_entry, pooled_covariance_entry, centered, row_mean,
    pooled_mean.
  simpl app. simpl get.
  rewrite !(rsum_flatten B T (fun b t => get data [b; _; t])).
  f_equal.
  apply (rsum_flatten B T
           (fun b t =>
              (get data [b; c; t]
               - rsum B (fun b0 => rsum T (fun t0 => get data [b0; c; t0]))
                 / IZR (Z.of_nat (B * T)))
              * (get data [b; C'; t]
                 - rsum B (fun b0 => rsum T (fun t0 => get data [b0; C'; t0]))
                   / IZR (Z.of_nat (B * T))))).
Qed.

Lemma covariance_of_flattened_is_pooled_witness :
  exists x r : tensor R,
    rearrange_bct_c_bt two_trials = Ok x
    /\ covariance x true None = Ok r
    /\ get r [0; 1]%nat = -1 / 6.
Proof.
  destruct (covariance_of_flattened_is_pooled two_trials true 2 2 2 eq_refl
              ltac:(simpl; lia)) as (x & r & Hx & _ & Hr & _ & Hg).
  exists x, r. split; [exact Hx|]. split; [exact Hr|].
  rewrite Hg by lia.
  unfold pooled_covariance_entry, pooled_mean. simpl. field.
Defined.

(** X9.  [tensor_tf2pt] undoes the layout change that produced [data_tf]:
    converting [data] to the TensorFlow layout and back returns [data]. *)
Theorem tensor_tf2pt_round_trip {A : Type} (data : tensor A) (B C T : nat) :
  shape data = [B; C; T] ->
  exists data_tf back : tensor A,
    rearrange_bct_btc data = Ok data_tf
    /\ shape data_tf = [B; T; C]
    /\ tensor_tf2pt data_tf = Ok back
    /\ teq back data.
Proof.
  intros Hs. unfold rearrange_bct_btc, tensor_tf2pt. rewrite Hs.
  eexists. eexists. split; [reflexivity|]. split; [reflexivity|].
  split; [reflexivity|]. split; [symmetry; exact Hs|].
  intros [|b [|c [|t [|? ?]]]]; reflexivity.
Qed.

Lemma tensor_tf2pt_round_trip_witness :
  exists data_tf back : tensor R,
    rearrange_bct_btc two_trials = Ok data_tf
    /\ tensor_tf2pt data_tf = Ok back
    /\ get data_tf [1; 0; 1]%nat = 1
    /\ get back [1; 1; 0]%nat = 1.
Proof.
  destruct (tensor_tf2pt_round_trip two_trials 2 2 2 eq_refl)
    as (data_tf & back & Hd & _ & Hb & _ & Hg).
  exists data_tf, back. split; [exact Hd|]. split; [exact Hb|]. split.
  - unfold rearrange_bct_btc in Hd. simpl in Hd. inversion Hd. reflexivity.
  - rewrite Hg. reflexivity.
Defined.

(** X10.  [convert_conv_weights] reverses the three axes and is its own
    inverse: converting a kernel twice returns the kernel, and a tensor
    that is not 3-d is rejected. *)
Theorem convert_conv_weights_involution {A : Type} (w : tensor A) :
  (forall k i o, shape w = [k; i; o] ->
     exists w1 w2 : tensor A,
       convert_conv_weights w = Ok w1
       /\ shape w1 = [o; i; k]
       /\ (forall a b c, get w1 [a; b; c] = get w [c; b; a])
       /\ convert_conv_weights w1 = Ok w2
       /\ teq w2 w)
  /\ (length (shape w) <> 3%nat ->
      convert_conv_weights w = Raise RuntimeError).
Proof.
  split.
  - intros k i o Hs. unfold convert_conv_weights. rewrite Hs.
    eexists. eexists. split; [reflexivity|]. split; [reflexivity|].
    split; [intros; reflexivity|]. split; [reflexivity|].
    split; [symmetry; exact Hs|].
    intros idx. simpl. rewrite rev_involutive. reflexivity.
  - intros H. unfold convert_conv_weights.
    destruct (shape w) as [|a [|b [|c [|d ?]]]]; simpl in H;
      try reflexivity. contradiction.
Qed.

Lemma convert_conv_weights_involution_witness :
  exists w1 w2 : tensor R,
    convert_conv_weights demo_temporal = Ok w1
    /\ shape w1 = [3; 1; 2]%nat
    /\ get w1 [2; 0; 1]%nat = 2
    /\ convert_conv_weights w1 = Ok w2
    /\ get w2 [1; 0; 2]%nat = 2.
Proof.
  destruct (convert_conv_weights_involution demo_temporal) as [H _].
  destruct (H 2%nat 1%nat 3%nat eq_refl)
    as (w1 & w2 & H1 & Hs & Hg & H2 & _ & He).
  exists w1, w2. split; [exact H1|]. split; [exact Hs|]. split.
  - rewrite Hg. reflexivity.
  - split; [exact H2|]. rewrite He. reflexivity.
Defined.

(** ** The two frameworks *)

(** X11.  The regressor of [SimpleNet] and the last layer of the
    TensorFlow model agree once the weight is converted with
    [convert_conv_weights] and the activations are moved between the two
    layouts: this is the identity behind the cross-check of cells 26 to
    31. *)
Theorem regressor_frameworks_agree (weight z : tensor R) (B F T : nat) :
  shape z = [B; F; T] -> shape weight = [1%nat; F; 1%nat] ->
  exists kernel z_tf y_tf y_pt back : tensor R,
    convert_conv_weights weight = Ok kernel
    /\ rearrange_bct_btc z = Ok z_tf
    /\ regressor_tf kernel z_tf = Ok y_tf
    /\ regressor_pt weight z = Ok y_pt
    /\ tensor_tf2pt y_tf = Ok back
    /\ teq back y_pt.
Proof.
  intros Hz Hw.
  unfold convert_conv_weights, rearrange_bct_btc, regressor_tf, regressor_pt,
    tensor_tf2pt.
  rewrite Hz, Hw. simpl shape. cbv iota beta.
  do 5 eexists. do 5 (split; [reflexivity|]).
  split; [reflexivity|].
  intros [|b [|o [|t [|? ?]]]]; simpl; try reflexivity.
  apply rsum_ext. intros f _. ring.
Qed.

Lemma regressor_frameworks_agree_witness :
  exists kernel z_tf y_tf y_pt back : tensor R,
    convert_conv_weights demo_weight_pt = Ok kernel
    /\ rearrange_bct_btc demo_z_pt = Ok z_tf
    /\ regressor_tf kernel z_tf = Ok y_tf
    /\ regressor_pt demo_weight_pt demo_z_pt = Ok y_pt
    /\ tensor_tf2pt y_tf = Ok back
    /\ get back [0; 0; 1]%nat = get y_pt [0; 0; 1]%nat
    /\ get y_pt [0; 0; 1]%nat = 1.
Proof.
  destruct (regressor_frameworks_agree demo_weight_pt demo_z_pt 2 3 2
              eq_refl eq_refl)
    as (kernel & z_tf & y_tf & y_pt & back & H1 & H2 & H3 & H4 & H5 & _ & He).
  exists kernel, z_tf, y_tf, y_pt, back.
  repeat (split; [assumption|]). split; [apply He|].
  unfold regressor_pt in H4. simpl in H4. inversion H4. simpl. ring.
Defined.

(** ** The TensorFlow model *)

(** [LeakyReLU(-1)] is the absolute value. *)
Lemma leaky_relu_minus_one (v : R) : leaky_relu (-1) v = Rabs v.
Proof.
  unfold leaky_relu. destruct (Rlt_dec 0 v) as [H|H].
  - rewrite Rabs_right by lra. reflexivity.
  - rewrite Rabs_left1 by lra. ring.
Qed.

Lemma scaled_scale (a : R) (x : tensor R) : scaled a x (scale a x).
Proof. split; [reflexivity | intros idx; reflexivity]. Qed.

Lemma conv1x1_scaled (a : R) (kernel x x' r : tensor R) :
  scaled a x x' -> conv1x1_tf kernel x = Ok r ->
  exists r', conv1x1_tf kernel x' = Ok r' /\ scaled a r r'.
Proof.
  intros [Hs Hg] H. unfold conv1x1_tf in *. rewrite Hs.
  destruct (shape x) as [|B [|T [|Cin [|? ?]]]]; try discriminate.
  destruct (shape kernel) as [|[|[|?]] [|Cin' [|Cout [|? ?]]]];
    try discriminate.
  destruct (Cin =? Cin')%nat; [|discriminate].
  inversion H; subst r; clear H.
  eexists. split; [reflexivity|]. split; [reflexivity|].
  intros [|b [|t [|o [|? ?]]]]; simpl; try ring.
  rewrite <- rsum_mult_l. apply rsum_ext. intros c _. rewrite Hg. ring.
Qed.

Lemma batch_normalization_scaled (a : R) (x x' : tensor R) :
  scaled a x x' ->
  scaled a (batch_normalization_fresh x) (batch_normalization_fresh x').
Proof.
  intros [Hs Hg]. split; [exact Hs|].
  intros idx. simpl. rewrite Hg. unfold Rdiv. ring.
Qed.

Lemma depthwise_conv_scaled (a : R) (kernel x x' r : tensor R) :
  scaled a x x' -> depthwise_conv_tf kernel x = Ok r ->
  exists r', depthwise_conv_tf kernel x' = Ok r' /\ scaled a r r'.
Proof.
  intros [Hs Hg] H. unfold depthwise_conv_tf in *. rewrite Hs.
  destruct (shape x) as [|B [|T [|F [|? ?]]]]; try discriminate.
  destruct (shape kernel) as [|k [|[|[|?]] [|F' [|? ?]]]]; try discriminate.
  destruct ((F =? F') && (0 <? k))%nat; [|discriminate].
  inversion H; subst r; clear H.
  eexists. split; [reflexivity|]. split; [reflexivity|].
  intros [|b [|t [|f [|? ?]]]]; simpl; try ring.
  rewrite <- rsum_mult_l. apply rsum_ext. intros j _.
  destruct ((same_pad_left k <=? t + j) && (t + j <? same_pad_left k + T))%nat.
  - rewrite Hg. ring.
  - ring.
Qed.

Lemma leaky_relu_scaled (a : R) (x x' : tensor R) :
  scaled a x x' ->
  scaled (Rabs a) (tmap (leaky_relu (-1)) x) (tmap (leaky_relu (-1)) x').
Proof.
  intros [Hs Hg]. split; [exact Hs|].
  intros idx. simpl. rewrite !leaky_relu_minus_one, Hg. apply Rabs_mult.
Qed.

Lemma average_pooling_scaled (a : R) (p : nat) (x x' r : tensor R) :
  scaled a x x' -> average_pooling1d p x = Ok r ->
  exists r', average_pooling1d p x' = Ok r' /\ scaled a r r'.
Proof.
  intros [Hs Hg] H. unfold average_pooling1d in *. rewrite Hs.
  destruct (shape x) as [|B [|T [|F [|? ?]]]]; try discriminate.
  destruct ((0 <? p) && (p <=? T))%nat; [|discriminate].
  inversion H; subst r; clear H.
  eexists. split; [reflexivity|]. split; [reflexivity|].
  intros [|b [|t [|f [|? ?]]]]; simpl; try ring.
  rewrite (rsum_ext p _ (fun j => a * get x [b; (t * p + j)%nat; f]))
    by (intros; apply Hg).
  rewrite rsum_mult_l. unfold Rdiv. ring.
Qed.

Lemma regressor_tf_scaled (a : R) (kernel x x' r : tensor R) :
  scaled a x x' -> regressor_tf kernel x = Ok r ->
  exists r', regressor_tf kernel x' = Ok r' /\ scaled a r r'.
Proof.
  intros [Hs Hg] H. unfold regressor_tf in *. rewrite Hs.
  destruct (shape x) as [|B [|T [|F [|? ?]]]]; try discriminate.
  inversion H; subst r; clear H.
  eexists. split; [reflexivity|]. split; [reflexivity|].
  intros [|b [|t [|o [|? ?]]]]; simpl; try ring.
  rewrite <- rsum_mult_l. apply rsum_ext. intros f _. rewrite Hg. ring.
Qed.

(** X12.  The TensorFlow model is positively homogeneous: multiplying the
    input batch by [a] multiplies the envelope [z] and the output [y] by
    [|a|]; in particular the sign of the input is lost. *)
Theorem model_tf_grad_homogeneous (npoints nchannels downsample_coef : nat)
    (ks kt kr inputs z y : tensor R) (a : R) :
  model_tf_grad npoints nchannels downsample_coef ks kt kr inputs = Ok (z, y) ->
  exists z' y' : tensor R,
    model_tf_grad npoints nchannels downsample_coef ks kt kr (scale a inputs)
    = Ok (z', y')
    /\ scaled (Rabs a) z z' /\ scaled (Rabs a) y y'.
Proof.
  unfold model_tf_grad. intros H.
  assert (Hc : check_input npoints nchannels (scale a inputs)
               = check_input npoints nchannels inputs) by reflexivity.
  rewrite Hc.
  destruct (check_input npoints nchannels inputs) as [[]|e]; simpl in *;
    [|discriminate].
  destruct (conv1x1_tf ks inputs) as [ra|e] eqn:Ea; simpl in H; [|discriminate].
  destruct (conv1x1_scaled a ks inputs (scale a inputs) ra
              (scaled_scale a inputs) Ea) as (ra' & Ea' & Sa).
  rewrite Ea'. simpl.
  pose proof (batch_normalization_scaled a ra ra' Sa) as Sb.
  destruct (depthwise_conv_tf kt (batch_normalization_fresh ra)) as [rc|e]
    eqn:Ec; simpl in H; [|discriminate].
  destruct (depthwise_conv_scaled a kt _ _ rc Sb Ec) as (rc' & Ec' & Sc).
  rewrite Ec'. simpl.
  pose proof (leaky_relu_scaled a _ _ (batch_normalization_scaled a rc rc' Sc))
    as Se.
  destruct (average_pooling1d downsample_coef
              (tmap (leaky_relu (-1)) (batch_normalization_fresh rc)))
    as [rz|e] eqn:Ez; simpl in H; [|discriminate].
  destruct (average_pooling_scaled (Rabs a) downsample_coef _ _ rz Se Ez)
    as (rz' & Ez' & Sz).
  rewrite Ez'. simpl.
  destruct (regressor_tf kr rz) as [ry|e] eqn:Ey; simpl in H; [|discriminate].
  destruct (regressor_tf_scaled (Rabs a) kr rz rz' ry Sz Ey)
    as (ry' & Ey' & Sy).
  rewrite Ey'. simpl. inversion H; subst.
  exists rz', ry'. split; [reflexivity|]. split; assumption.
Qed.

Lemma pooled_length (n p : nat) :
  (0 < p)%nat -> (p <= n)%nat -> ((n - p) / p + 1 = n / p)%nat.
Proof.
  intros Hp Hn.
  replace n with ((n - p) + 1 * p)%nat at 2 by lia.
  rewrite Nat.div_add by lia. reflexivity.
Qed.

(** A well-shaped batch runs through all layers. *)
Lemma model_tf_grad_runs (npoints nchannels p B F k : nat)
    (ks kt kr inputs : tensor R) :
  shape inputs = [B; npoints; nchannels] ->
  shape ks = [1%nat; nchannels; F] -> shape kt = [k; 1%nat; F] ->
  (0 < k)%nat -> (0 < p)%nat -> (p <= npoints)%nat ->
  exists z y : tensor R,
    model_tf_grad npoints nchannels p ks kt kr inputs = Ok (z, y)
    /\ shape z = [B; (npoints / p)%nat; F]
    /\ shape y = [B; (npoints / p)%nat; 1%nat].
Proof.
  intros Hi Hks Hkt Hk Hp Hn.
  unfold model_tf_grad, check_input. rewrite Hi, !Nat.eqb_refl. simpl bind.
  unfold conv1x1_tf. rewrite Hi, Hks, Nat.eqb_refl. simpl bind.
  unfold depthwise_conv_tf. simpl shape. rewrite Hkt, Nat.eqb_refl.
  destruct (Nat.ltb_spec 0 k); [|lia]. simpl bind.
  unfold average_pooling1d. simpl shape.
  destruct (Nat.ltb_spec 0 p); [|lia].
  destruct (Nat.leb_spec p npoints); [|lia]. simpl bind.
  rewrite (pooled_length npoints p Hp Hn).
  do 2 eexists. split; [reflexivity|]. split; reflexivity.
Qed.

Lemma model_tf_grad_homogeneous_witness :
  exists z y z' y' : tensor R,
    model_tf_grad 4 2 2 tf_spatial_kernel tf_temporal_kernel
      tf_regressor_kernel tf_inputs = Ok (z, y)
    /\ model_tf_grad 4 2 2 tf_spatial_kernel tf_temporal_kernel
         tf_regressor_kernel (scale (-3) tf_inputs) = Ok (z', y')
    /\ get z' [0; 1; 0]%nat = 3 * get z [0; 1; 0]%nat
    /\ get y' [0; 1; 0]%nat = 3 * get y [0; 1; 0]%nat.
Proof.
  destruct (model_tf_grad_runs 4 2 2 1 2 3 tf_spatial_kernel
              tf_temporal_kernel tf_regressor_kernel tf_inputs
              eq_refl eq_refl eq_refl ltac:(lia) ltac:(lia) ltac:(lia))
    as (z & y & Hm & _).
  destruct (model_tf_grad_homogeneous 4 2 2 tf_spatial_kernel
              tf_temporal_kernel tf_regressor_kernel tf_inputs z y (-3) Hm)
    as (z' & y' & Hm' & [_ Hz] & [_ Hy]).
  exists z, y, z', y'. split; [exact Hm|]. split; [exact Hm'|].
  rewrite Hz, Hy, Rabs_left by lra. split; f_equal; lra.
Defined.

(** X13.  For a batch of the declared input shape and kernels of the
    layers' shapes the model returns an envelope of [npoints //
    downsample_coef] time steps per feature (a trailing incomplete block is
    dropped) and one output per time step; a pool of zero or longer than
    the time axis is rejected with [ValueError]. *)
Theorem model_tf_grad_shapes (npoints nchannels p B F k : nat)
    (ks kt kr inputs : tensor R) :
  shape inputs = [B; npoints; nchannels] ->
  shape ks = [1%nat; nchannels; F] -> shape kt = [k; 1%nat; F] ->
  (0 < k)%nat ->
  ((0 < p)%nat -> (p <= npoints)%nat ->
   exists z y : tensor R,
     model_tf_grad npoints nchannels p ks kt kr inputs = Ok (z, y)
     /\ shape z = [B; (npoints / p)%nat; F]
     /\ shape y = [B; (npoints / p)%nat; 1%nat])
  /\ (p = 0%nat \/ (npoints < p)%nat ->
      model_tf_grad npoints nchannels p ks kt kr inputs = Raise ValueError).
Proof.
  intros Hi Hks Hkt Hk. split.
  - intros Hp Hn.
    apply (model_tf_grad_runs npoints nchannels p B F k); assumption.
  - intros Hbad.
    unfold model_tf_grad, check_input. rewrite Hi, !Nat.eqb_refl. simpl bind.
    unfold conv1x1_tf. rewrite Hi, Hks, Nat.eqb_refl. simpl bind.
    unfold depthwise_conv_tf. simpl shape. rewrite Hkt, Nat.eqb_refl.
    destruct (Nat.ltb_spec 0 k); [|lia]. simpl bind.
    unfold average_pooling1d. simpl shape.
    destruct (Nat.ltb_spec 0 p); destruct (Nat.leb_spec p npoints);
      try lia; reflexivity.
Qed.

Lemma model_tf_grad_shapes_witness :
  (exists z y : tensor R,
     model_tf_grad 4 2 2 tf_spatial_kernel tf_temporal_kernel
       tf_regressor_kernel tf_inputs = Ok (z, y)
     /\ shape z = [1; 2; 2]%nat /\ shape y = [1; 2; 1]%nat)
  /\ model_tf_grad 4 2 5 tf_spatial_kernel tf_temporal_kernel
       tf_regressor_kernel tf_inputs = Raise ValueError.
Proof.
  destruct (model_tf_grad_shapes 4 2 2 1 2 3 tf_spatial_kernel
              tf_temporal_kernel tf_regressor_kernel tf_inputs
              eq_refl eq_refl eq_refl ltac:(lia)) as [Hok _].
  destruct (model_tf_grad_shapes 4 2 5 1 2 3 tf_spatial_kernel
              tf_temporal_kernel tf_regressor_kernel tf_inputs
              eq_refl eq_refl eq_refl ltac:(lia)) as [_ Hbad].
  split.
  - apply Hok; lia.
  - apply Hbad. right. lia.
Defined.

(** X14.  Whatever the kernels and the batch, the envelope [z] the model
    returns is non-negative everywhere: [LeakyReLU(-1)] takes absolute
    values and the pooling averages them. *)
Theorem model_tf_grad_envelope_nonneg (npoints nchannels p : nat)
    (ks kt kr inputs z y : tensor R) :
  model_tf_grad npoints nchannels p ks kt kr inputs = Ok (z, y) ->
  forall idx, 0 <= get z idx.
Proof.
  unfold model_tf_grad. intros H idx.
  destruct (check_input npoints nchannels inputs) as [[]|e]; simpl in H;
    [|discriminate].
  destruct (conv1x1_tf ks inputs) as [ra|e]; simpl in H; [|discriminate].
  destruct (depthwise_conv_tf kt (batch_normalization_fresh ra)) as [rc|e];
    simpl in H; [|discriminate].
  unfold average_pooling1d in H. simpl shape in H.
  destruct (shape rc) as [|B [|T [|F [|? ?]]]]; simpl in H; try discriminate.
  destruct (Nat.ltb_spec 0 p); simpl in H; [|discriminate].
  destruct (p <=? T)%nat; simpl in H; [|discriminate].
  inversion H; subst; clear H.
  destruct idx as [|b [|t [|f [|? ?]]]]; simpl; try lra.
  apply Rmult_le_pos.
  - apply rsum_nonneg. intros j _. rewrite leaky_relu_minus_one.
    apply Rabs_pos.
  - left. apply Rinv_0_lt_compat, IZR_of_nat_pos. assumption.
Qed.

Lemma model_tf_grad_envelope_nonneg_witness :
  exists z y : tensor R,
    model_tf_grad 4 2 2 tf_spatial_kernel tf_temporal_kernel
      tf_regressor_kernel tf_inputs = Ok (z, y)
    /\ 0 <= get z [0; 1; 1]%nat.
Proof.
  destruct (model_tf_grad_runs 4 2 2 1 2 3 tf_spatial_kernel
              tf_temporal_kernel tf_regressor_kernel tf_inputs
              eq_refl eq_refl eq_refl ltac:(lia) ltac:(lia) ltac:(lia))
    as (z & y & Hm & _).
  exists z, y. split; [exact Hm|].
  apply (model_tf_grad_envelope_nonneg 4 2 2 tf_spatial_kernel
           tf_temporal_kernel tf_regressor_kernel tf_inputs z y Hm).
Defined.

(** X15.  The importance the TensorFlow cross-check assigns to a feature
    does not depend on the activations: it is the number of batch and time
    positions times the absolute regressor weight of the feature. *)
Theorem gradients_tf_closed_form (kernel z : tensor R) (B T F : nat) :
  shape z = [B; T; F] ->
  exists g : tensor R,
    gradients_tf kernel z = Ok g
    /\ forall f, get g [f]
                 = IZR (Z.of_nat (B * T)) * Rabs (get kernel [0%nat; f; 0%nat]).
Proof.
  intros Hz.
  destruct (gradients_tf_entries kernel z B T F Hz) as (g & Hg & _ & He).
  exists g. split; [exact Hg|]. intros f. rewrite He. simpl get.
  rewrite (rsum_ext B _ (fun _ => IZR (Z.of_nat T)
                                  * Rabs (get kernel [0%nat; f; 0%nat])))
    by (intros; apply rsum_const).
  rewrite rsum_const, Nat2Z.inj_mul, mult_IZR. ring.
Qed.

Lemma gradients_tf_closed_form_witness :
  exists g : tensor R,
    gradients_tf demo_kernel_tf demo_z_tf = Ok g
    /\ get g [0%nat] = 8 /\ get g [1%nat] = 20 /\ get g [2%nat] = 12.
Proof.
  destruct (gradients_tf_closed_form demo_kernel_tf demo_z_tf 2 2 3 eq_refl)
    as (g & Hg & He).
  exists g. split; [exact Hg|]. rewrite !He. simpl.
  rewrite (Rabs_right 2), (Rabs_left (-5)), (Rabs_right 3) by lra.
  repeat split; lra.
Defined.

(** ** The discrepancy measure *)

Lemma sum_over_ext (s : list nat) (f g : list nat -> R) :
  (forall idx, valid_index idx s -> f idx = g idx) ->
  sum_over s f = sum_over s g.
Proof.
  revert f g. induction s as [|n s IH]; intros f g H; simpl.
  - apply H. constructor.
  - apply rsum_ext. intros i Hi. apply IH. intros idx Hv.
    apply H. constructor; assumption.
Qed.

Lemma sum_over_mult_l (s : list nat) (a : R) (f : list nat -> R) :
  sum_over s (fun idx => a * f idx) = a * sum_over s f.
Proof.
  revert f. induction s as [|n s IH]; intros f; simpl.
  - reflexivity.
  - rewrite <- rsum_mult_l. apply rsum_ext. intros i _.
    apply (IH (fun idx => f (i :: idx))).
Qed.

Lemma sum_over_nonneg (s : list nat) (f : list nat -> R) :
  (forall idx, valid_index idx s -> 0 <= f idx) -> 0 <= sum_over s f.
Proof.
  revert f. induction s as [|n s IH]; intros f H; simpl.
  - apply H. constructor.
  - apply rsum_nonneg. intros i Hi. apply IH. intros idx Hv.
    apply H. constructor; assumption.
Qed.

Lemma rsum_zero_terms (n : nat) (g : nat -> R) :
  (forall t, (t < n)%nat -> 0 <= g t) -> rsum n g = 0 ->
  forall t, (t < n)%nat -> g t = 0.
Proof.
  induction n as [|n IH]; intros Hpos Hsum t Ht; [lia|].
  simpl in Hsum.
  assert (H1 : 0 <= rsum n g) by (apply rsum_nonneg; intros; apply Hpos; lia).
  assert (H2 : 0 <= g n) by (apply Hpos; lia).
  destruct (Nat.eq_dec t n) as [->|Hne].
  - lra.
  - apply IH; try lia; try lra. intros; apply Hpos; lia.
Qed.

Lemma sum_over_zero_terms (s : list nat) (f : list nat -> R) :
  (forall idx, valid_index idx s -> 0 <= f idx) -> sum_over s f = 0 ->
  forall idx, valid_index idx s -> f idx = 0.
Proof.
  revert f. induction s as [|n s IH]; intros f Hpos Hsum idx Hv.
  - inversion Hv; subst. exact Hsum.
  - inversion Hv as [|i n' idx' s' Hi Hv']; subst. simpl in Hsum.
    apply (IH (fun idx0 => f (i :: idx0))); try assumption.
    + intros idx0 Hv0. apply Hpos. constructor; assumption.
    + apply (rsum_zero_terms n
               (fun i0 => sum_over s (fun idx0 => f (i0 :: idx0))));
        try assumption.
      intros t Ht. apply sum_over_nonneg. intros idx0 Hv0.
      apply Hpos. constructor; assumption.
Qed.

Lemma linalg_norm_nonneg (x : tensor R) : 0 <= linalg_norm x.
Proof. apply sqrt_pos. Qed.

Lemma sum_squares_nonneg (x : tensor R) :
  0 <= sum_over (shape x) (fun i => get x i * get x i).
Proof. apply sum_over_nonneg. intros idx _. apply Rle_0_sqr. Qed.

Lemma bshape_rev_comm (a b : list nat) : bshape_rev a b = bshape_rev b a.
Proof.
  revert b. induction a as [|d a IH]; intros [|e b]; simpl; try reflexivity.
  rewrite (IH b). destruct (bshape_rev b a) as [s|]; [|reflexivity].
  rewrite (Nat.eqb_sym e d).
  destruct (Nat.eqb_spec d e) as [->|Hne]; [reflexivity|].
  destruct (Nat.eqb_spec d 1), (Nat.eqb_spec e 1); try reflexivity.
  lia.
Qed.

Lemma broadcast_shapes_comm (a b : list nat) :
  broadcast_shapes a b = broadcast_shapes b a.
Proof. unfold broadcast_shapes. rewrite bshape_rev_comm. reflexivity. Qed.

(** X16.  [diff] is symmetric in its two arguments, failures included. *)
Theorem diff_symmetric (x y : tensor R) : diff x y = diff y x.
Proof.
  unfold diff, tzip. rewrite (broadcast_shapes_comm (shape y) (shape x)).
  destruct (broadcast_shapes (shape x) (shape y)) as [s|]; [|reflexivity].
  simpl. f_equal. f_equal.
  - unfold linalg_norm. simpl. f_equal. apply sum_over_ext.
    intros idx _. ring.
  - rewrite Rmult_comm. reflexivity.
Qed.

(** X17.  The discrepancy of a tensor with itself is 0, except for a
    tensor of norm zero, where the quotient [0 / 0] is [nan]. *)
Theorem diff_self (x : tensor R) :
  diff x x = Ok (if Req_dec_T (linalg_norm x) 0 then NaN else Finite 0).
Proof.
  unfold diff, tzip. rewrite broadcast_shapes_refl. simpl. f_equal.
  assert (Hd : linalg_norm
                 (mkTensor (shape x)
                    (fun i => get x (bidx (shape x) i)
                              - get x (bidx (shape x) i))) = 0).
  { unfold linalg_norm. simpl.
    rewrite (sum_over_ext _ _ (fun idx => 0 * 0)) by (intros; ring).
    rewrite sum_over_mult_l, Rmult_0_l. apply sqrt_0. }
  rewrite Hd, sqrt_square by apply linalg_norm_nonneg.
  unfold float_div.
  destruct (Req_dec_T (linalg_norm x) 0) as [E|E].
  - destruct (Req_dec_T 0 0); [reflexivity | contradiction].
  - f_equal. unfold Rdiv. ring.
Qed.

Lemma linalg_norm_scaled (a : R) (t t' : tensor R) :
  scaled a t t' -> linalg_norm t' = Rabs a * linalg_norm t.
Proof.
  intros [Hs Hg]. unfold linalg_norm. rewrite Hs.
  rewrite (sum_over_ext _ _ (fun idx => (a * a) * (get t idx * get t idx)))
    by (intros idx _; rewrite Hg; ring).
  rewrite sum_over_mult_l, sqrt_mult
    by (try apply Rle_0_sqr; apply sum_squares_nonneg).
  f_equal. apply sqrt_Rsqr_abs.
Qed.

Lemma float_div_scale (k n d : R) :
  0 < k -> float_div (k * n) (k * d) = float_div n d.
Proof.
  intros Hk. unfold float_div.
  destruct (Req_dec_T d 0) as [Ed|Ed].
  - subst d. rewrite Rmult_0_r.
    destruct (Req_dec_T 0 0) as [_|ne]; [|contradiction].
    destruct (Req_dec_T n 0) as [En|En].
    + subst n. rewrite Rmult_0_r.
      destruct (Req_dec_T 0 0); [reflexivity | contradiction].
    + destruct (Req_dec_T (k * n) 0) as [E|_]; [nra|].
      destruct (Rlt_dec 0 n), (Rlt_dec 0 (k * n)); try reflexivity; nra.
  - destruct (Req_dec_T (k * d) 0) as [E|_]; [nra|].
    f_equal. field. split; lra.
Qed.

(** X18.  [diff] is a relative measure: multiplying both tensors by the
    same non-zero factor does not change it. *)
Theorem diff_scale_invariant (a : R) (x y : tensor R) :
  a <> 0 -> diff (scale a x) (scale a y) = diff x y.
Proof.
  intros Ha. unfold diff, tzip. simpl shape.
  destruct (broadcast_shapes (shape x) (shape y)) as [s|]; [|reflexivity].
  simpl. f_equal.
  rewrite (linalg_norm_scaled a x (scale a x) (scaled_scale a x)).
  rewrite (linalg_norm_scaled a y (scale a y) (scaled_scale a y)).
  rewrite (linalg_norm_scaled a
             (mkTensor s (fun i => get x (bidx (shape x) i)
                                   - get y (bidx (shape y) i)))
             (mkTensor s (fun i => a * get x (bidx (shape x) i)
                                   - a * get y (bidx (shape y) i))))
    by (split; [reflexivity | intros idx; simpl; ring]).
  replace (Rabs a * linalg_norm x * (Rabs a * linalg_norm y))
    with ((Rabs a * Rabs a) * (linalg_norm x * linalg_norm y)) by ring.
  rewrite sqrt_mult
    by (try apply Rle_0_sqr;
        apply Rmult_le_pos; apply linalg_norm_nonneg).
  rewrite sqrt_square by apply Rabs_pos.
  apply float_div_scale. apply Rabs_pos_lt. exact Ha.
Qed.

Lemma diff_scale_invariant_witness :
  diff (scale 2 pattern_a) (scale 2 pattern_b) = diff pattern_a pattern_b.
Proof. apply diff_scale_invariant. lra. Defined.

(** X19.  For two tensors of the same shape and non-zero norm, [diff]
    returns 0 exactly when the tensors have the same entries: any
    discrepancy between the two frameworks shows. *)
Theorem diff_zero_iff_equal (x y : tensor R) :
  shape x = shape y -> linalg_norm x <> 0 -> linalg_norm y <> 0 ->
  (diff x y = Ok (Finite 0)
   <-> forall idx, valid_index idx (shape x) -> get x idx = get y idx).
Proof.
  intros Hs Hx Hy. unfold diff, tzip.
  rewrite <- Hs, broadcast_shapes_refl. simpl.
  assert (Hden : sqrt (linalg_norm x * linalg_norm y) <> 0).
  { intros E. apply sqrt_eq_0 in E.
    - apply Rmult_integral in E. tauto.
    - apply Rmult_le_pos; apply linalg_norm_nonneg. }
  set (d := mkTensor (shape x)
              (fun i => get x (bidx (shape x) i) - get y (bidx (shape x) i))).
  assert (Hterm : forall idx, valid_index idx (shape x) ->
            get d idx * get d idx
            = (get x idx - get y idx) * (get x idx - get y idx)).
  { intros idx Hv. unfold d. simpl. rewrite (bidx_valid _ _ Hv).
    reflexivity. }
  unfold float_div.
  destruct (Req_dec_T (sqrt (linalg_norm x * linalg_norm y)) 0) as [E|_];
    [contradiction|].
  split.
  - intros H idx Hv. inversion H as [Hq].
    assert (Hn : linalg_norm d = 0).
    { apply (Rmult_eq_compat_r (sqrt (linalg_norm x * linalg_norm y))) in Hq.
      unfold Rdiv in Hq. rewrite Rmult_assoc, Rinv_l, Rmult_1_r, Rmult_0_l in Hq
        by exact Hden.
      exact Hq. }
    unfold linalg_norm in Hn. apply sqrt_eq_0 in Hn;
      [|apply sum_squares_nonneg].
    pose proof (sum_over_zero_terms (shape d)
                  (fun i => get d i * get d i)
                  (fun i _ => Rle_0_sqr (get d i)) Hn idx Hv) as Hz.
    cbv beta in Hz. rewrite (Hterm idx Hv) in Hz.
    apply Rmult_integral in Hz. lra.
  - intros H. do 2 f_equal.
    assert (Hn : linalg_norm d = 0).
    { unfold linalg_norm.
      rewrite (sum_over_ext _ _ (fun _ => 0 * 0)).
      - rewrite sum_over_mult_l, Rmult_0_l. apply sqrt_0.
      - intros idx Hv. simpl shape in Hv. rewrite (Hterm idx Hv), (H idx Hv).
        ring. }
    rewrite Hn. unfold Rdiv. ring.
Qed.

Lemma diff_zero_iff_equal_witness :
  diff pattern_a pattern_b <> Ok (Finite 0)
  /\ diff pattern_a pattern_a = Ok (Finite 0).
Proof.
  assert (Ha : linalg_norm pattern_a <> 0).
  { unfold linalg_norm. simpl.
    replace (0 + (0 + 3 * 3 + 4 * 4)) with (5 * 5) by ring.
    rewrite sqrt_square; lra. }
  assert (Hb : linalg_norm pattern_b <> 0).
  { unfold linalg_norm. simpl.
    replace (0 + (0 + 3 * 3 + 0 * 0)) with (3 * 3) by ring.
    rewrite sqrt_square; lra. }
  split.
  - intros H.
    pose proof (proj1 (diff_zero_iff_equal pattern_a pattern_b
                         eq_refl Ha Hb) H [0; 1]%nat
                  ltac:(repeat constructor)) as E.
    simpl in E. lra.
  - apply (proj2 (diff_zero_iff_equal pattern_a pattern_a eq_refl Ha Ha)).
    intros idx _. reflexivity.
Defined.

(** X20.  When one of the two tensors is zero throughout (norm 0), the
    denominator vanishes and [diff] returns no number: [inf] when the
    other tensor is not zero, [nan] when both are. *)
Theorem diff_zero_norm (x y : tensor R) :
  shape x = shape y -> linalg_norm x = 0 ->
  diff x y = Ok (if Req_dec_T (linalg_norm y) 0 then NaN else PosInf).
Proof.
  intros Hs Hx. unfold diff, tzip.
  rewrite <- Hs, broadcast_shapes_refl. simpl bind.
  assert (Hzero : forall idx, valid_index idx (shape x) -> get x idx = 0).
  { intros idx Hv. unfold linalg_norm in Hx.
    apply sqrt_eq_0 in Hx; [|apply sum_squares_nonneg].
    pose proof (sum_over_zero_terms (shape x)
                  (fun i => get x i * get x i)
                  (fun i _ => Rle_0_sqr (get x i)) Hx idx Hv) as Hz.
    cbv beta in Hz. apply Rmult_integral in Hz. tauto. }
  assert (Hd : linalg_norm
                 (mkTensor (shape x)
                    (fun i => get x (bidx (shape x) i)
                              - get y (bidx (shape x) i)))
               = linalg_norm y).
  { unfold linalg_norm. simpl shape. rewrite <- Hs. f_equal.
    apply sum_over_ext. intros idx Hv. simpl get.
    rewrite (bidx_valid _ _ Hv), (Hzero idx Hv). ring. }
  rewrite Hd, Hx, Rmult_0_l, sqrt_0. unfold float_div.
  destruct (Req_dec_T 0 0) as [_|ne]; [|contradiction].
  destruct (Req_dec_T (linalg_norm y) 0) as [E|E]; [reflexivity|].
  destruct (Rlt_dec 0 (linalg_norm y)) as [_|Hn]; [reflexivity|].
  pose proof (linalg_norm_nonneg y). lra.
Qed.

Lemma diff_zero_norm_witness : diff pattern_zero pattern_a = Ok PosInf.
Proof.
  assert (Hz : linalg_norm pattern_zero = 0).
  { unfold linalg_norm. simpl.
    replace (0 + (0 + 0 * 0 + 0 * 0)) with 0 by ring. apply sqrt_0. }
  assert (Ha : linalg_norm pattern_a <> 0).
  { unfold linalg_norm. simpl.
    replace (0 + (0 + 3 * 3 + 4 * 4)) with (5 * 5) by ring.
    rewrite sqrt_square; lra. }
  rewrite (diff_zero_norm pattern_zero pattern_a eq_refl Hz).
  destruct (Req_dec_T (linalg_norm pattern_a) 0); [contradiction|].
  reflexivity.
Defined.

(** ** The filter spectrum: outcomes, scaling and the zero-frequency bin *)

Lemma rev_nil_inv {A : Type} (l : list A) : rev l = [] -> l = [].
Proof.
  intros H. rewrite <- (rev_involutive l), H. reflexivity.
Qed.

Lemma Cabs_scale (a u v : R) : Cabs (a * u, - (a * v)) = Rabs a * Cabs (u, - v).
Proof.
  unfold Cabs. simpl.
  replace (a * u * (a * u) + - (a * v) * - (a * v))
    with ((a * a) * (u * u + - v * - v)) by ring.
  rewrite sqrt_mult.
  - f_equal. apply sqrt_Rsqr_abs.
  - apply Rle_0_sqr.
  - replace (u * u + - v * - v) with (u * u + v * v) by ring.
    apply Rplus_le_le_0_compat; apply Rle_0_sqr.
Qed.

Lemma resized_scale (a : R) (x : tensor R) (T : nat) (lead : list nat) (j : nat) :
  resized (scale a x) T lead j = a * resized x T lead j.
Proof.
  unfold resized. destruct (j <? T)%nat; simpl; ring.
Qed.

Lemma rsum_resized_min (x : tensor R) (K N : nat) (lead : list nat)
    (g : nat -> R) :
  rsum N (fun j => resized x K lead j * g j)
  = rsum (Nat.min K N) (fun j => get x (lead ++ [j]) * g j).
Proof.
  destruct (Nat.le_gt_cases K N) as [H|H].
  - rewrite Nat.min_l by exact H. apply rsum_resized. exact H.
  - rewrite Nat.min_r by lia. apply rsum_ext. intros j Hj. unfold resized.
    destruct (Nat.ltb_spec j K); [reflexivity | lia].
Qed.

(** X21.  [spectrum] fails in three ways only: on a 0-d signal
    ([IndexError]), for a transform length below 1 ([RuntimeError]) and
    for a zero sample rate ([ZeroDivisionError], from [1/fs]); in every
    other case it returns.  Its [assert] on the two bin counts never
    fires. *)
Theorem spectrum_outcome (signal : tensor R) (fs : R) (nfreq : Z) :
  match spectrum signal fs nfreq with
  | Ok (fr, am) =>
      shape signal <> [] /\ (1 <= nfreq)%Z /\ fs <> 0
      /\ shape fr = [Z.to_nat (nfreq / 2)]
  | Raise IndexError => shape signal = []
  | Raise RuntimeError => shape signal <> [] /\ (nfreq < 1)%Z
  | Raise ZeroDivisionError => shape signal <> [] /\ (1 <= nfreq)%Z /\ fs = 0
  | Raise _ => False
  end.
Proof.
  unfold spectrum, fft.
  destruct (rev (shape signal)) as [|T rl] eqn:Hr.
  - simpl. apply rev_nil_inv. exact Hr.
  - assert (Hne : shape signal <> []).
    { intros E. rewrite E in Hr. discriminate. }
    destruct (Z.ltb_spec nfreq 1) as [Hn|Hn].
    + simpl. split; assumption.
    + simpl bind. unfold py_inv.
      destruct (Req_dec_T fs 0) as [Hfs|Hfs].
      * simpl. repeat split; assumption.
      * simpl bind. unfold shape_last. simpl shape.
        rewrite rev_app_distr. simpl rev. simpl app. simpl bind.
        rewrite Nat.eqb_refl. simpl negb. cbv iota.
        unfold slice_last_to. simpl shape. rewrite rev_app_distr.
        simpl rev. simpl app. simpl bind.
        rewrite slice_stop_half by lia.
        repeat split; assumption.
Qed.

(** X22.  The amplitude spectrum is absolutely homogeneous: multiplying
    the kernels by [a] multiplies every amplitude by [|a|] and leaves the
    frequencies alone. *)
Theorem spectrum_homogeneous (a : R) (signal : tensor R) (fs : R) (nfreq : Z)
    (fr am : tensor R) :
  spectrum signal fs nfreq = Ok (fr, am) ->
  exists am' : tensor R,
    spectrum (scale a signal) fs nfreq = Ok (fr, am')
    /\ scaled (Rabs a) am am'.
Proof.
  unfold spectrum, fft. simpl shape.
  destruct (rev (shape signal)) as [|T rl]; [discriminate|].
  destruct (Z.ltb_spec nfreq 1) as [Hn|Hn]; [discriminate|].
  simpl bind. unfold py_inv.
  destruct (Req_dec_T fs 0) as [Hfs|Hfs]; [discriminate|].
  simpl bind. unfold shape_last. simpl shape.
  rewrite rev_app_distr. simpl rev. simpl app. simpl bind.
  rewrite Nat.eqb_refl. simpl negb. cbv iota.
  unfold slice_last_to. simpl shape. rewrite rev_app_distr.
  simpl rev. simpl app. simpl bind.
  intros H. inversion H as [[Hfr Ham]]. clear H.
  eexists. split; [reflexivity|]. split; [reflexivity|].
  intros idx. simpl get.
  rewrite <- Cabs_scale. f_equal. f_equal.
  - rewrite <- rsum_mult_l. apply rsum_ext. intros j _.
    rewrite resized_scale. ring.
  - f_equal. rewrite <- rsum_mult_l. apply rsum_ext. intros j _.
    rewrite resized_scale. ring.
Qed.

Lemma spectrum_homogeneous_witness :
  exists fr am am' : tensor R,
    spectrum two_tap_bank 1 4 = Ok (fr, am)
    /\ spectrum (scale (-2) two_tap_bank) 1 4 = Ok (fr, am')
    /\ scaled (Rabs (-2)) am am'.
Proof.
  destruct (spectrum_unfold two_tap_bank 1 4 [1; 1]%nat 2 eq_refl
              ltac:(lra) ltac:(lia)) as (fr & am & H & _).
  destruct (spectrum_homogeneous (-2) two_tap_bank 1 4 fr am H)
    as (am' & H' & Hsc).
  exists fr, am, am'. repeat split; try assumption; apply Hsc.
Defined.

(** X23.  The bin at frequency 0 carries the absolute value of the sum of
    the kernel's taps, of its first [nfreq] taps when the kernel is
    longer than the transform and is trimmed. *)
Theorem spectrum_dc_bin (signal : tensor R) (fs : R) (nfreq : Z)
    (ls : list nat) (K : nat) :
  shape signal = ls ++ [K] -> fs <> 0 -> (2 <= nfreq)%Z ->
  exists fr am : tensor R,
    spectrum signal fs nfreq = Ok (fr, am)
    /\ valid_index [0%nat] (shape fr)
    /\ get fr [0%nat] = 0
    /\ forall lead,
         get am (lead ++ [0%nat])
         = Rabs (rsum (Nat.min K (Z.to_nat nfreq))
                   (fun j => get signal (lead ++ [j]))).
Proof.
  intros Hs Hfs Hn.
  destruct (spectrum_unfold signal fs nfreq ls K Hs Hfs ltac:(lia))
    as (fr & am & Hsp & Hsf & _ & Hgf & Hga).
  exists fr, am. split; [exact Hsp|]. split; [|split].
  - rewrite Hsf. repeat constructor.
    assert (1 <= nfreq / 2)%Z by (apply Z.div_le_lower_bound; lia). lia.
  - rewrite Hgf. simpl.
    destruct (Z.leb_spec 0 ((nfreq - 1) / 2)) as [_|Hneg].
    + unfold Rdiv. ring.
    + assert (0 <= (nfreq - 1) / 2)%Z by (apply Z.div_pos; lia). lia.
  - intros lead. rewrite Hga. unfold Cabs. simpl fst. simpl snd.
    rewrite (rsum_ext _ _ (fun j => resized signal K lead j * 1)).
    2:{ intros j _. rewrite Nat.mul_0_r. simpl INR.
        replace (2 * PI * 0 / INR (Z.to_nat nfreq)) with 0
          by (unfold Rdiv; ring).
        rewrite cos_0. reflexivity. }
    rewrite (rsum_zero _ (fun j => resized signal K lead j
                            * sin (2 * PI * INR (j * 0)
                                   / INR (Z.to_nat nfreq)))).
    2:{ intros j _. rewrite Nat.mul_0_r. simpl INR.
        replace (2 * PI * 0 / INR (Z.to_nat nfreq)) with 0
          by (unfold Rdiv; ring).
        rewrite sin_0. ring. }
    rewrite rsum_resized_min.
    rewrite (rsum_ext _ _ (fun j => get signal (lead ++ [j])))
      by (intros j _; ring).
    replace (- 0 * - 0) with 0 by ring. rewrite Rplus_0_r.
    apply sqrt_Rsqr_abs.
Qed.

Lemma spectrum_dc_bin_witness :
  exists fr am : tensor R,
    spectrum two_tap_bank 1 4 = Ok (fr, am)
    /\ get am [0; 0; 0]%nat = 7.
Proof.
  destruct (spectrum_dc_bin two_tap_bank 1 4 [1; 1]%nat 2 eq_refl
              ltac:(lra) ltac:(lia)) as (fr & am & H & _ & _ & Hdc).
  exists fr, am. split; [exact H|].
  change [0; 0; 0]%nat with ([0; 0] ++ [0])%nat. rewrite Hdc.
  simpl. replace (0 + 3 + 4) with 7 by ring. apply Rabs_pos_eq. lra.
Defined.

(** ** The derived spectra (notebook cell 14) *)

Lemma spectrum_amplitudes_nonneg (signal : tensor R) (fs : R) (nfreq : Z)
    (fr am : tensor R) :
  spectrum signal fs nfreq = Ok (fr, am) -> forall idx, 0 <= get am idx.
Proof.
  unfold spectrum, fft.
  destruct (rev (shape signal)) as [|T rl]; [discriminate|].
  destruct (nfreq <? 1)%Z; [discriminate|].
  simpl bind. unfold py_inv.
  destruct (Req_dec_T fs 0); [discriminate|].
  simpl bind. unfold shape_last. simpl shape.
  rewrite rev_app_distr. simpl rev. simpl app. simpl bind.
  rewrite Nat.eqb_refl. simpl negb. cbv iota.
  unfold slice_last_to. simpl shape. rewrite rev_app_distr.
  simpl rev. simpl app. simpl bind.
  intros H. inversion H as [[Hfr Ham]]. intros idx. simpl.
  apply sqrt_pos.
Qed.

Lemma rearrange_c1t_ct_entries (x r : tensor R) :
  rearrange_c1t_ct x = Ok r -> forall idx, exists idx', get r idx = get x idx'.
Proof.
  unfold rearrange_c1t_ct.
  destruct (shape x) as [|c [|o [|t [|]]]]; try discriminate;
    destruct o as [|[|]]; try discriminate.
  intros H. injection H as <-. intros idx. simpl.
  destruct idx as [|a [|b [|]]]; eauto.
Qed.

(** X24.  When the periodogram values are non-negative, so are all four
    spectra of cell 14: the input spectrum, the filter spectrum, the
    temporal-pattern spectrum and the output spectrum. *)
Theorem derived_spectra_nonneg
    (welch_psd : tensor R -> Z -> list nat -> R)
    (x_unmixed temporal_filter : tensor R) (fs : R) (nyquist : Z)
    (inp tfs tps out : tensor R) :
  (forall x n i, 0 <= welch_psd x n i) ->
  temporal_patterns_cell welch_psd x_unmixed temporal_filter fs nyquist
  = Ok (inp, tfs, tps, out) ->
  forall idx,
    0 <= get inp idx /\ 0 <= get tfs idx
    /\ 0 <= get tps idx /\ 0 <= get out idx.
Proof.
  intros Hpsd. unfold temporal_patterns_cell, welch.
  destruct (welch_shape (shape x_unmixed) nyquist) as [s|e]; [|discriminate].
  simpl bind. unfold slice_last_to at 1. simpl shape.
  destruct (rev s) as [|n rl]; [discriminate|]. simpl bind.
  destruct (spectrum temporal_filter fs nyquist) as [[fr am]|e] eqn:Hsp;
    [|discriminate].
  simpl bind. simpl snd.
  destruct (rearrange_c1t_ct am) as [r|e] eqn:Hr; [|discriminate].
  simpl bind.
  assert (Hnn : forall idx, 0 <= get r idx).
  { intros idx.
    destruct (rearrange_c1t_ct_entries am r Hr idx) as [idx' ->].
    apply (spectrum_amplitudes_nonneg _ _ _ _ _ Hsp). }
  unfold temporal_patterns_spectrum, output_spectrum, pow2, tzip.
  simpl shape.
  destruct (broadcast_shapes (shape r) (rev rl ++ [slice_stop n (-1)]))
    as [bs|]; [|discriminate].
  simpl bind. intros H. injection H as <- <- <- <-. intros idx. simpl.
  split; [apply Hpsd|]. split; [apply Hnn|]. split.
  - apply Rmult_le_pos; [apply Hnn | apply Hpsd].
  - apply Rmult_le_pos; [apply Rle_0_sqr | apply Hpsd].
Qed.

Lemma derived_spectra_nonneg_witness :
  exists inp tfs tps out : tensor R,
    temporal_patterns_cell flat_psd long_unmixed two_tap_bank 1 4
    = Ok (inp, tfs, tps, out)
    /\ forall idx, 0 <= get tps idx /\ 0 <= get out idx.
Proof.
  pose proof (temporal_patterns_cell_result flat_psd long_unmixed
                two_tap_bank 1 4 1 5 2 eq_refl eq_refl
                ltac:(lra) ltac:(lia) ltac:(lia) ltac:(lia)) as H.
  change (bdim (Z.to_nat (4 / 2)) (Z.to_nat (Z.min 4 (Z.of_nat 5) / 2)))
    with (Some 2%nat) in H.
  destruct H as (inp & tfs & tps & out & H & _).
  exists inp, tfs, tps, out. split; [exact H|].
  intros idx.
  apply (derived_spectra_nonneg flat_psd long_unmixed two_tap_bank 1 4
           inp tfs tps out
           ltac:(intros; unfold flat_psd; lra) H idx).
Defined.

(** ** The filtering and the loop: edge cases *)

Lemma fold_left_raise {A B : Type} (step : tensor A -> B -> result (tensor A))
    (l : list B) (e : exception) :
  fold_left (fun acc b => sp <- acc ;; step sp b) l (Raise e) = Raise e.
Proof.
  induction l as [|b l IH]; [reflexivity | exact IH].
Qed.

(** X25.  A kernel whose only non-zero tap is a 1 at position
    [(k - 1) // 2] is the identity of the same-padded depthwise
    convolution, for odd and for even kernel lengths: the output sample
    [t] is read from the input at [t + j - (k - 1) // 2]. *)
Theorem conv1d_same_centre_tap (x w : tensor R) (C L k : nat) :
  shape x = [C; L] -> shape w = [C; 1%nat; k] ->
  (0 < C)%nat -> (0 < L)%nat -> (0 < k)%nat ->
  (forall c j, (c < C)%nat -> (j < k)%nat ->
     get w [c; 0%nat; j] = if (j =? same_pad_left k)%nat then 1 else 0) ->
  exists y : tensor R,
    conv1d_same x w C = Ok y
    /\ shape y = shape x
    /\ forall c t, (c < C)%nat -> (t < L)%nat -> get y [c; t] = get x [c; t].
Proof.
  intros Hx Hw HC HL Hk Htap.
  destruct (conv1d_same_depthwise x w C L k Hx Hw HC HL Hk)
    as (y & Hy & Hsy & Hgy).
  exists y. split; [exact Hy|]. split; [rewrite Hx; exact Hsy|].
  intros c t Hc Ht. rewrite Hgy by exact Hc.
  assert (Hleft : (same_pad_left k < k)%nat).
  { unfold same_pad_left.
    apply Nat.le_lt_trans with (k - 1)%nat; [|lia].
    apply Nat.Div0.div_le_upper_bound. lia. }
  rewrite (rsum_ext _ _
             (fun j => if (j =? same_pad_left k)%nat
                       then padded x [] L (same_pad_left k) c
                              (t + same_pad_left k)%nat
                       else 0)).
  - rewrite rsum_delta by exact Hleft. unfold padded.
    destruct (Nat.leb_spec (same_pad_left k) (t + same_pad_left k)); [|lia].
    destruct (Nat.ltb_spec (t + same_pad_left k) (same_pad_left k + L));
      [|lia].
    simpl. rewrite Nat.add_sub. reflexivity.
  - intros j Hj. rewrite (Htap c j Hc Hj).
    destruct (Nat.eqb_spec j (same_pad_left k)) as [->|_]; ring.
Qed.

Lemma conv1d_same_centre_tap_witness :
  exists y : tensor R,
    conv1d_same demo_signal impulse_bank 2 = Ok y
    /\ shape y = shape demo_signal
    /\ forall c t, (c < 2)%nat -> (t < 4)%nat ->
         get y [c; t] = get demo_signal [c; t].
Proof.
  apply (conv1d_same_centre_tap demo_signal impulse_bank 2 4 2
           eq_refl eq_refl); try lia.
  intros c j Hc Hj.
  destruct c as [|[|c]]; [| |lia];
    (destruct j as [|[|j]]; [reflexivity | reflexivity | lia]).
Defined.

(** X26.  On a recording with a single time sample the loop raises
    [ZeroDivisionError] at its first feature, from the unbiased
    covariance of the filtered signal; no pattern is returned. *)
Theorem spatial_patterns_loop_one_sample (x tw sw : tensor R) (nf C k : nat) :
  shape x = [C; 1%nat] -> shape tw = [nf; 1%nat; k] ->
  shape sw = [nf; C; 1%nat] ->
  (0 < C)%nat -> (0 < k)%nat -> (0 < nf)%nat ->
  spatial_patterns_loop x tw sw nf C = Raise ZeroDivisionError.
Proof.
  intros Hx Htw Hsw HC Hk Hnf. unfold spatial_patterns_loop.
  destruct nf as [|n]; [lia|]. rewrite <- cons_seq.
  cbn [fold_left]. simpl bind at 2.
  assert (Hstep : pattern_step x tw sw C (zeros [S n; C]) 0
                  = Raise ZeroDivisionError).
  { unfold pattern_step.
    unfold slice_one. rewrite Htw.
    destruct (Nat.ltb_spec 0 (S n)) as [_|]; [|lia]. simpl bind.
    unfold select. rewrite Hsw.
    destruct (Nat.ltb_spec 0 (S n)) as [_|]; [|lia]. simpl bind.
    unfold repeat_11t_c1t. simpl shape. simpl bind.
    match goal with
    | |- context [conv1d_same x ?w C] =>
        destruct (conv1d_same_depthwise x w C 1 k Hx eq_refl HC)
          as (y & Hy & Hsy & _); [lia | exact Hk |]
    end.
    rewrite Hy. simpl bind.
    unfold covariance, tzip.
    change [C; 1%nat] with ([C] ++ [1%nat]) in Hsy.
    rewrite (shape_mean_last y [C] 1 Hsy), Hsy, broadcast_shapes_keepdims.
    simpl bind. unfold shape_last. simpl shape. reflexivity. }
  rewrite Hstep. apply fold_left_raise.
Qed.

Lemma spatial_patterns_loop_one_sample_witness :
  spatial_patterns_loop single_sample one_feature_temporal
    one_feature_spatial 1 2 = Raise ZeroDivisionError.
Proof.
  apply (spatial_patterns_loop_one_sample single_sample one_feature_temporal
           one_feature_spatial 1 2 2 eq_refl eq_refl eq_refl); lia.
Defined.

(** ** Chunked accumulation over the trials *)








